(** * jsl.document: documents, role resolution and definition extraction

  A shallow embedding of [jsl/document.py].  Python dictionaries are
  finite maps, ordered dictionaries are association lists with unique
  keys, sets passed by reference live in a store, and exceptions are a
  result type threaded through a small state-and-error monad. *)

From stdpp Require Import gmap strings list fin_maps.

Set Warnings "-register-all,-clear-no-such-hyp".

(** ** Ordered dictionaries ([OrderedDict]) *)

Module OrderedDict.

Definition t (A : Type) : Type := list (string * A).

Section ops.
Context {A : Type}.

(** [d[key]], [None] standing for [KeyError]. *)
Fixpoint get (key : string) (d : t A) : option A :=
  match d with
  | [] => None
  | (k, v) :: rest => if decide (k = key) then Some v else get key rest
  end.

(** [d[key] = value]: an existing key keeps its position, a new key
    goes last. *)
Fixpoint set (key : string) (value : A) (d : t A) : t A :=
  match d with
  | [] => [(key, value)]
  | (k, v) :: rest =>
      if decide (k = key) then (k, value) :: rest
      else (k, v) :: set key value rest
  end.

Definition keys (d : t A) : list string := fst <$> d.

(** [d.update(other)]. *)
Definition update (d other : t A) : t A :=
  foldl (fun acc kv => set kv.1 kv.2 acc) d other.

Definition contains (key : string) (d : t A) : bool :=
  bool_decide (is_Some (get key d)).
End ops.

End OrderedDict.

(** ** JSON values and the two kinds of mapping a schema can be *)

Inductive json : Type :=
| JNull
| JBool (b : bool)
| JNum (n : Z)
| JStr (s : string)
| JList (l : list json)
| JMap (m : mapping)
with mapping : Type :=
| Dict (d : gmap string json)               (* a plain [dict] *)
| ODict (d : list (string * json)).         (* an [OrderedDict] *)

Module Mapping.

(** [OrderedDict() if ordered else {}] *)
Definition empty (ordered : bool) : mapping :=
  if ordered then ODict [] else Dict ∅.

Definition is_ordered (m : mapping) : bool :=
  match m with Dict _ => false | ODict _ => true end.

Definition get (key : string) (m : mapping) : option json :=
  match m with
  | Dict d => d !! key
  | ODict d => OrderedDict.get key d
  end.

(** [m[key] = value] *)
Definition set (key : string) (value : json) (m : mapping) : mapping :=
  match m with
  | Dict d => Dict (<[key := value]> d)
  | ODict d => ODict (OrderedDict.set key value d)
  end.

(** [iteritems(m)] *)
Definition items (m : mapping) : list (string * json) :=
  match m with
  | Dict d => map_to_list d
  | ODict d => d
  end.

Definition keys (m : mapping) : gset string :=
  list_to_set (fst <$> items m).

(** [m.update(other)] *)
Definition update (m other : mapping) : mapping :=
  foldl (fun acc kv => set kv.1 kv.2 acc) m (items other).

(** Truth value of a mapping: non-empty. *)
Definition truthy (m : mapping) : bool :=
  match items m with [] => false | _ :: _ => true end.

End Mapping.

(** ** Roles, matchers and role-conditional slots ([jsl/roles.py]) *)

Definition Role : Type := string.

(** Modelled from the spec: a matcher is an opaque predicate over role
    identifiers (section 3, "predicate-over-role"); [roles.py] is not part
    of the sources at hand. *)
Definition Matcher : Type := Role -> bool.

(** Modelled from the spec: the matcher [construct_matcher] builds from a
    role name accepts that role and no other (section 9, "exact role"). *)
Definition exact (r : Role) : Matcher := fun role => bool_decide (role = r).

(** Modelled from the spec: [all_()] accepts every role (section 9,
    "all"). *)
Definition all_ : Matcher := fun _ => true.

(** A document class is identified by its module and class name, the key
    under which [registry.put_document] files it. *)
Definition DocId : Type := (string * string)%type.

(** ** The field graph ([jsl/fields]) *)

(** Modelled from the spec: the field variants of section 3 with their
    slots; [fields.py] is not part of the sources at hand.  A slot is
    absent, a field, a fixed tuple of fields, or a [Var] holding an
    ordered list of (matcher, payload) pairs whose payloads are slots
    again.  A scalar field carries its identity, the other fields their
    slots, a document reference the class it points to. *)
Inductive Field : Type :=
| Scalar (uid : nat)
| ArrayField (items additional_items : Slot)
| DictField (properties pattern_properties : list (string * Slot))
            (additional_properties : Slot)
| NotField (field : Slot)
| OfField (fields : Slot)
| DocumentField (document_cls : DocId)
with Slot : Type :=
| SAbsent
| SField (f : Field)
| STuple (fs : list Field)
| SVar (values : list (Matcher * Slot)).

(** The test of [is_recursive]:
    [isinstance(field, DocumentField) and field.document_cls == cls]. *)
Definition points_to (cls : DocId) (f : Field) : bool :=
  match f with
  | DocumentField d => bool_decide (d = cls)
  | _ => false
  end.

(** Modelled from the spec: the slots of a field, in the order of
    section 3 (items before additional items; properties, pattern
    properties, additional properties). *)
Definition slots_of (f : Field) : list Slot :=
  match f with
  | Scalar _ => []
  | ArrayField items additional_items => [items; additional_items]
  | DictField properties pattern_properties additional_properties =>
      (snd <$> properties) ++ (snd <$> pattern_properties)
        ++ [additional_properties]
  | NotField s => [s]
  | OfField s => [s]
  | DocumentField _ => []
  end.

(** Modelled from the spec: the role-free walk of a slot visits every
    branch of a [Var] and skips absent payloads (section 4.1). *)
Fixpoint slot_iter_fields (s : Slot) : list Field :=
  match s with
  | SAbsent => []
  | SField f => [f]
  | STuple fs => fs
  | SVar values =>
      (fix branches (vs : list (Matcher * Slot)) : list Field :=
         match vs with
         | [] => []
         | (_, payload) :: rest => slot_iter_fields payload ++ branches rest
         end) values
  end.

(** Modelled from the spec: [Var.resolve(role)], first match wins over the
    declared order, resolution continues through a nested [Var], and no
    match resolves to absent (section 4.2). *)
Fixpoint resolve (role : Role) (s : Slot) : Slot :=
  match s with
  | SVar values =>
      (fix first_match (vs : list (Matcher * Slot)) : Slot :=
         match vs with
         | [] => SAbsent
         | (matcher, payload) :: rest =>
             if matcher role then resolve role payload else first_match rest
         end) values
  | _ => s
  end.

(** Modelled from the spec: the fields a slot contributes once it is
    resolved against [role] (section 4.2). *)
Definition slot_resolve_and_iter_fields (role : Role) (s : Slot) : list Field :=
  slot_iter_fields (resolve role s).

(** ** Options and document classes *)

Module Options.

(** The option container of a document class.  [pattern_properties] and
    [additional_properties] are kept as slots of the implicit object field;
    the remaining entries are scalar keywords. *)
Record t : Type := {
  pattern_properties : list (string * Slot);
  additional_properties : Slot;
  min_properties : option nat;
  max_properties : option nat;
  title : option string;
  description : option string;
  default : option json;
  enum : option (list json);
  id : string;
  schema_uri : option string;
  definition_id : option string;
  roles_to_propagate : Matcher
}.

End Options.

(** A document class as [DocumentMeta.__new__] leaves it. *)
Record Document : Type := {
  __module__ : string;
  __name__ : string;
  _fields : OrderedDict.t Slot;
  _options : Options.t;
  _field : Field
}.

(** Class identity. *)
Definition cls_id (cls : Document) : DocId := (__module__ cls, __name__ cls).

(** The document classes a [DocumentField] can point to. *)
Abbreviation Registry := (gmap DocId Document).

(** ** Traversals of the field graph *)

(** Sequencing of traversals that may run out of fuel. *)
Section flat_map_option.
Context {A B : Type}.
Variable f : A -> option (list B).

Fixpoint flat_mapM (l : list A) : option (list B) :=
  match l with
  | [] => Some []
  | x :: rest =>
      match f x, flat_mapM rest with
      | Some ys, Some zs => Some (ys ++ zs)
      | _, _ => None
      end
  end.
End flat_map_option.

(** Modelled from the spec: [iter_fields()] of a field yields what its
    slots hold, every [Var] branch included (section 4.1); with scalar
    payloads, as in [tests/test_iter_methods.py], these are the leaves.  A
    document reference yields the fields of the document it points to
    ([test_document_field]). *)
Definition Field_iter_fields (registry : Registry) (f : Field) : list Field :=
  match f with
  | DocumentField document_cls =>
      match registry !! document_cls with
      | Some target => flat_map slot_iter_fields (slots_of (_field target))
      | None => []
      end
  | _ => flat_map slot_iter_fields (slots_of f)
  end.

(** Modelled from the spec: [resolve_and_iter_fields(role)] resolves every
    slot against [role] first (section 4.2). *)
Definition Field_resolve_and_iter_fields (registry : Registry) (role : Role)
    (f : Field) : list Field :=
  match f with
  | DocumentField document_cls =>
      match registry !! document_cls with
      | Some target =>
          flat_map (slot_resolve_and_iter_fields role)
                   (slots_of (_field target))
      | None => []
      end
  | _ => flat_map (slot_resolve_and_iter_fields role) (slots_of f)
  end.

Section resolve_and_walk.
Variable role : Role.
Variable through_document_fields : bool.
(** What walking into a referenced document yields; [None] when the walk
    ran out of fuel. *)
Variable enter_document : gset DocId -> DocId -> option (list Field).

(** Modelled from the spec: [resolve_and_walk] yields the field itself and
    then, slot by slot, the walk of what each slot resolves to; a document
    reference is expanded only with [through_document_fields] and only
    when its target is not among [visited_documents], which then grows by
    the target (sections 4.1, 4.2).  That the field itself comes first and
    that document references show up in the walk is what [document.py]
    relies on ([next(fields)] in [Document.resolve_and_walk], the
    [isinstance] test in [is_recursive]). *)
Fixpoint Field_resolve_and_walk (visited_documents : gset DocId) (f : Field)
  {struct f} : option (list Field) :=
  match f with
  | Scalar _ => Some [f]
  | ArrayField items additional_items =>
      match Slot_resolve_and_walk visited_documents items,
            Slot_resolve_and_walk visited_documents additional_items with
      | Some xs, Some ys => Some (f :: xs ++ ys)
      | _, _ => None
      end
  | DictField properties pattern_properties additional_properties =>
      match flat_mapM (fun p => Slot_resolve_and_walk visited_documents p.2)
                      properties,
            flat_mapM (fun p => Slot_resolve_and_walk visited_documents p.2)
                      pattern_properties,
            Slot_resolve_and_walk visited_documents additional_properties with
      | Some xs, Some ys, Some zs => Some (f :: xs ++ ys ++ zs)
      | _, _, _ => None
      end
  | NotField s =>
      match Slot_resolve_and_walk visited_documents s with
      | Some xs => Some (f :: xs)
      | None => None
      end
  | OfField s =>
      match Slot_resolve_and_walk visited_documents s with
      | Some xs => Some (f :: xs)
      | None => None
      end
  | DocumentField document_cls =>
      if through_document_fields
      then if decide (document_cls ∈ visited_documents) then Some [f]
           else match enter_document ({[document_cls]} ∪ visited_documents)
                                     document_cls with
                | Some xs => Some (f :: xs)
                | None => None
                end
      else Some [f]
  end
with Slot_resolve_and_walk (visited_documents : gset DocId) (s : Slot)
  {struct s} : option (list Field) :=
  match s with
  | SAbsent => Some []
  | SField f => Field_resolve_and_walk visited_documents f
  | STuple fs => flat_mapM (Field_resolve_and_walk visited_documents) fs
  | SVar values =>
      (fix first_match (vs : list (Matcher * Slot)) : option (list Field) :=
         match vs with
         | [] => Some []
         | (matcher, payload) :: rest =>
             if matcher role
             then Slot_resolve_and_walk visited_documents payload
             else first_match rest
         end) values
  end.

End resolve_and_walk.

Section walk.
Variable through_document_fields : bool.
Variable enter_document : gset DocId -> DocId -> option (list Field).

(** Modelled from the spec: [walk] yields the field itself and then, slot
    by slot, the walk of what each slot holds, every branch of a [Var]
    in the order of its branches; a document reference is expanded as in
    [resolve_and_walk] (section 4.1). *)
Fixpoint Field_walk (visited_documents : gset DocId) (f : Field)
  {struct f} : option (list Field) :=
  match f with
  | Scalar _ => Some [f]
  | ArrayField items additional_items =>
      match Slot_walk visited_documents items,
            Slot_walk visited_documents additional_items with
      | Some xs, Some ys => Some (f :: xs ++ ys)
      | _, _ => None
      end
  | DictField properties pattern_properties additional_properties =>
      match flat_mapM (fun p => Slot_walk visited_documents p.2) properties,
            flat_mapM (fun p => Slot_walk visited_documents p.2)
                      pattern_properties,
            Slot_walk visited_documents additional_properties with
      | Some xs, Some ys, Some zs => Some (f :: xs ++ ys ++ zs)
      | _, _, _ => None
      end
  | NotField s =>
      match Slot_walk visited_documents s with
      | Some xs => Some (f :: xs)
      | None => None
      end
  | OfField s =>
      match Slot_walk visited_documents s with
      | Some xs => Some (f :: xs)
      | None => None
      end
  | DocumentField document_cls =>
      if through_document_fields
      then if decide (document_cls ∈ visited_documents) then Some [f]
           else match enter_document ({[document_cls]} ∪ visited_documents)
                                     document_cls with
                | Some xs => Some (f :: xs)
                | None => None
                end
      else Some [f]
  end
with Slot_walk (visited_documents : gset DocId) (s : Slot)
  {struct s} : option (list Field) :=
  match s with
  | SAbsent => Some []
  | SField f => Field_walk visited_documents f
  | STuple fs => flat_mapM (Field_walk visited_documents) fs
  | SVar values =>
      flat_mapM (fun v => Slot_walk visited_documents v.2) values
  end.

End walk.

(** ** Resolution scopes ([jsl/resolutionscope.py]) *)

Module ResolutionScope.

(** Modelled from the spec: a scope carries a base URI and the URI of the
    current output (section 3); [document.py] builds it with the keywords
    [base], [current] and [output], and [resolutionscope.py] is not part
    of the sources at hand. *)
Record t : Type := {
  base : string;
  current : string;
  output : string
}.

(** Modelled from the spec: [ResolutionScope()], every URI empty. *)
Definition default : t := {| base := ""; current := ""; output := "" |}.

(** Modelled from the spec: [res_scope.replace(output=o)], a scope that
    differs in its output only (section 3: scopes are immutable). *)
Definition replace_output (res_scope : t) (o : string) : t :=
  {| base := base res_scope; current := current res_scope; output := o |}.

(** Modelled from the spec: [create_ref] returns a reference to
    [#/definitions/<definition_id>] relative to the current output
    (sections 3 and 6): nothing before the fragment when the output is the
    base, the base URI otherwise. *)
Definition create_ref (res_scope : t) (definition_id : string) : mapping :=
  Dict {[ "$ref" :=
    JStr ((if decide (base res_scope = output res_scope)
           then "" else base res_scope)
          +:+ "#/definitions/" +:+ definition_id) ]}.

End ResolutionScope.

(** ** Failures and their processing trail ([jsl/exceptions.py]) *)

(** Modelled from the spec: a step of the processing trail (section 7).
    [DocumentStep(cls, role=role)] names a document class and the role it
    is compiled under; other steps are opaque here. *)
Inductive Step : Type :=
| DocumentStep (cls : DocId) (role : Role)
| OtherStep (what : string).

(** Modelled from the spec: a schema-generation failure with its trail,
    outermost step first (section 7). *)
Record SchemaGenerationException : Type := {
  message : string;
  steps : list Step
}.

(** ** The store of sets and the monad of compilation

    A Python [set] is passed by reference: a [ref_documents] argument is
    [None] or the location of a set in the store.  A computation takes a
    store and returns the store it leaves behind together with a value or
    a raised exception. *)

Abbreviation Store := (gmap nat (gset DocId)).

Inductive result (A : Type) : Type :=
| Ok (a : A)
| Raise (e : SchemaGenerationException).
Arguments Ok {A} a.
Arguments Raise {A} e.

Definition M (A : Type) : Type := Store -> Store * result A.

Definition ret {A : Type} (a : A) : M A := fun h => (h, Ok a).

Definition bind {A B : Type} (m : M A) (k : A -> M B) : M B :=
  fun h => match m h with
           | (h', Ok a) => k a h'
           | (h', Raise e) => (h', Raise e)
           end.

Notation "'do' x <- m ; k" := (bind m (fun x => k))
  (at level 10, x pattern, m at level 100, k at level 200).

(** The members of the set an argument refers to; [None] has none. *)
Definition members (h : Store) (ref : option nat) : gset DocId :=
  match ref with
  | Some l => default ∅ (h !! l)
  | None => ∅
  end.

(** Truth value of a [ref_documents] argument: a non-empty set. *)
Definition truthy_set (ref : option nat) : M bool :=
  fun h => (h, Ok (negb (bool_decide (members h ref = ∅)))).

(** [set(s)] and [set()]: a new set object with the given members. *)
Definition new_set (s : gset DocId) : M nat :=
  fun h => let l := fresh (dom h) in (<[l := s]> h, Ok l).

(** [set(ref)] *)
Definition copy_set (ref : option nat) : M nat :=
  fun h => new_set (members h ref) h.

(** [s.add(x)] *)
Definition set_add (l : nat) (x : DocId) : M unit :=
  fun h => (<[l := {[x]} ∪ members h (Some l)]> h, Ok tt).

(** Modelled from the spec: a failure with one more step at the head of
    its trail (section 7). *)
Definition push_step (step : Step) (e : SchemaGenerationException)
  : SchemaGenerationException :=
  {| message := message e; steps := step :: steps e |}.

(** Modelled from the spec: [with processing(step)] lets a result through
    and puts [step] at the head of the trail of a failure that passes
    (section 7); [exceptions.py] is not part of the sources at hand. *)
Definition processing {A : Type} (step : Step) (body : M A) : M A :=
  fun h => match body h with
           | (h', Ok a) => (h', Ok a)
           | (h', Raise e) => (h', Raise (push_step step e))
           end.

(** ** The methods of [Document] *)

Module Document.

Section methods.
Variable registry : Registry.

(** [Document.resolve_and_walk]: the walk of the implicit object field
    without its first element, the object field itself.  The fuel bounds
    how many documents deep the walk enters; [None] is a walk that ran
    out of it.  A reference to a class the registry does not hold is
    taken as a document without fields, and a referenced document is
    entered under the role of the walk (sections 4.1 to 4.3 name no
    other), as it is for documents whose [roles_to_propagate] option
    accepts that role. *)
Fixpoint resolve_and_walk_fuel (fuel : nat) (role : Role)
    (through_document_fields : bool) (visited_documents : gset DocId)
    (cls : Document) {struct fuel} : option (list Field) :=
  match fuel with
  | 0 => None
  | S fuel' =>
      tail <$>
        Field_resolve_and_walk role through_document_fields
          (fun visited d =>
             match registry !! d with
             | Some target =>
                 resolve_and_walk_fuel fuel' role through_document_fields
                                       visited target
             | None => Some []
             end)
          visited_documents (_field cls)
  end.

Definition resolve_and_walk (cls : Document) (role : Role)
    (through_document_fields : bool) (visited_documents : gset DocId)
  : option (list Field) :=
  resolve_and_walk_fuel (S (size registry)) role through_document_fields
                        visited_documents cls.

(** [Document.walk]: as [Document.resolve_and_walk], over every branch. *)
Fixpoint walk_fuel (fuel : nat) (through_document_fields : bool)
    (visited_documents : gset DocId) (cls : Document) {struct fuel}
  : option (list Field) :=
  match fuel with
  | 0 => None
  | S fuel' =>
      tail <$>
        Field_walk through_document_fields
          (fun visited d =>
             match registry !! d with
             | Some target =>
                 walk_fuel fuel' through_document_fields visited target
             | None => Some []
             end)
          visited_documents (_field cls)
  end.

Definition walk (cls : Document) (through_document_fields : bool)
    (visited_documents : gset DocId) : option (list Field) :=
  walk_fuel (S (size registry)) through_document_fields visited_documents cls.

(** The loop of [is_recursive]: return at the first document reference
    that points to the class. *)
Fixpoint is_recursive_loop (cls : Document) (fields : list Field) : bool :=
  match fields with
  | [] => false
  | field :: rest =>
      if points_to (cls_id cls) field then true
      else is_recursive_loop cls rest
  end.

(** [Document.is_recursive] *)
Definition is_recursive (cls : Document) (role : Role) : bool :=
  match resolve_and_walk cls role true {[cls_id cls]} with
  | Some fields => is_recursive_loop cls fields
  | None => false
  end.

(** [Document.iter_fields] *)
Definition iter_fields (cls : Document) : list Field :=
  Field_iter_fields registry (_field cls).

(** [Document.resolve_and_iter_fields] *)
Definition resolve_and_iter_fields (cls : Document) (role : Role)
  : list Field :=
  Field_resolve_and_iter_fields registry role (_field cls).

End methods.

(** [Document.get_definition_id]: Python's [or] falls through on [None]
    and on the empty string alike. *)
Definition get_definition_id (cls : Document) : string :=
  match Options.definition_id (_options cls) with
  | Some definition_id =>
      if decide (definition_id = "")
      then __module__ cls +:+ "." +:+ __name__ cls
      else definition_id
  | None => __module__ cls +:+ "." +:+ __name__ cls
  end.

Section compilation.
(** [DEFAULT_ROLE] of [jsl/roles.py] and the schema compiler of the
    implicit object field, [cls._field.get_definitions_and_schema], are
    not part of the sources at hand; the methods below take them as
    parameters. *)
Variable DEFAULT_ROLE : Role.
Variable registry : Registry.
Variable Field_get_definitions_and_schema :
  Field -> Role -> ResolutionScope.t -> bool -> option nat ->
  M (mapping * mapping).

(** [Document.get_definitions_and_schema] *)
Definition get_definitions_and_schema (cls : Document) (role : Role)
    (res_scope : ResolutionScope.t) (ordered : bool)
    (ref_documents : option nat) : M (mapping * mapping) :=
  let is_recursive := is_recursive registry cls DEFAULT_ROLE in
  do (ref_documents, res_scope) <-
     (if is_recursive
      then do nonempty <- truthy_set ref_documents;
           do ref_documents <-
              (if nonempty then copy_set ref_documents else new_set ∅);
           do _ <- set_add ref_documents (cls_id cls);
           ret (Some ref_documents,
                ResolutionScope.replace_output
                  res_scope (ResolutionScope.base res_scope))
      else ret (ref_documents, res_scope));
  do (definitions, schema) <-
     processing (DocumentStep (cls_id cls) role)
       (Field_get_definitions_and_schema
          (_field cls) role res_scope ordered ref_documents);
  if is_recursive
  then let definition_id := get_definition_id cls in
       let definitions := Mapping.set definition_id (JMap schema) definitions in
       let schema := ResolutionScope.create_ref res_scope definition_id in
       ret (definitions, schema)
  else ret (definitions, schema).

(** [Document.get_schema].  The scope is built with [base] and [current]
    only; its [output] is taken as empty, as in [ResolutionScope()]. *)
Definition get_schema (cls : Document) (role : Role) (ordered : bool)
  : M mapping :=
  let options := _options cls in
  do (definitions, schema) <-
     get_definitions_and_schema cls role
       {| ResolutionScope.base := Options.id options;
          ResolutionScope.current := Options.id options;
          ResolutionScope.output := "" |}
       ordered None;
  let rv := Mapping.empty ordered in
  let rv := if decide (Options.id options = "") then rv
            else Mapping.set "id" (JStr (Options.id options)) rv in
  let rv := match Options.schema_uri options with
            | Some uri => Mapping.set "$schema" (JStr uri) rv
            | None => rv
            end in
  let rv := if Mapping.truthy definitions
            then Mapping.set "definitions" (JMap definitions) rv
            else rv in
  ret (Mapping.update rv schema).

End compilation.

End Document.

(** ** Declaring a document class ([DocumentMeta]) *)

Module DocumentMeta.

(** [Scope]: a role matcher and the fields declared under it. *)
Record Scope : Type := {
  __matcher__ : Matcher;
  __fields__ : OrderedDict.t Slot
}.

(** What a name of the class body is bound to: a field or a [Var], a
    [Scope], or anything else (a method, the [Options] class, ...). *)
Inductive AttrValue : Type :=
| AField (value : Slot)
| AScope (value : Scope)
| AOther.

(** [DocumentMeta.__prepare__]: the namespace the class body is run in, an
    empty [OrderedDict]. *)
Definition __prepare__ : OrderedDict.t AttrValue := [].

(** The class statement runs the class body in that namespace: a binding
    [name = value], and likewise [with Scope(...) as name], is
    [namespace[name] = value], so that a name bound again keeps its place
    and takes the new value.  [__new__] receives the namespace as
    [attrs]. *)
Definition class_namespace (body : list (string * AttrValue))
  : OrderedDict.t AttrValue :=
  foldl (fun namespace kv => OrderedDict.set kv.1 kv.2 namespace)
        __prepare__ body.

(** A base class, with a [_fields] attribute or without one. *)
Inductive BaseClass : Type :=
| DocumentBase (base : Document)
| PlainBase.

(** An entry of [pre_fields]: a declared field, or the marker
    [to_be_replaced]. *)
Inductive PreField : Type :=
| Declared (field : Slot)
| ToBeReplaced.

(** The first loop of [collect_fields]: fields of the parent classes. *)
Definition inherited_fields (bases : list BaseClass) : OrderedDict.t Slot :=
  foldl (fun fields base =>
           match base with
           | DocumentBase b => OrderedDict.update fields (_fields b)
           | PlainBase => fields
           end) [] (reverse bases).

(** One round of the second loop: an entry of the class body updates
    [pre_fields] and [scopes]. *)
Definition scan_step (st : OrderedDict.t PreField * list Scope)
    (kv : string * AttrValue) : OrderedDict.t PreField * list Scope :=
  match kv.2 with
  | AField value => (OrderedDict.set kv.1 (Declared value) st.1, st.2)
  | AScope value =>
      (foldl (fun pre scope_key =>
                OrderedDict.set scope_key ToBeReplaced pre)
             st.1 (OrderedDict.keys (__fields__ value)),
       st.2 ++ [value])
  | AOther => st
  end.

(** The second loop: the fields and the scopes of the class body. *)
Definition scan_attrs (attrs : OrderedDict.t AttrValue)
  : OrderedDict.t PreField * list Scope :=
  foldl scan_step ([], []) attrs.

(** The [(matcher, field)] pairs of the scopes that declare [name]. *)
Definition scope_values (scopes : list Scope) (name : string)
  : list (Matcher * Slot) :=
  flat_map (fun scope =>
              match OrderedDict.get name (__fields__ scope) with
              | Some field => [(__matcher__ scope, field)]
              | None => []
              end) scopes.

(** [DocumentMeta.collect_fields] *)
Definition collect_fields (bases : list BaseClass)
    (attrs : OrderedDict.t AttrValue) : OrderedDict.t Slot :=
  let fields := inherited_fields bases in
  let '(pre_fields, scopes) := scan_attrs attrs in
  foldl (fun fields nf =>
           match nf.2 with
           | ToBeReplaced =>
               OrderedDict.set nf.1 (SVar (scope_values scopes nf.1)) fields
           | Declared field => OrderedDict.set nf.1 field fields
           end) fields pre_fields.

(** [DocumentMeta.__new__].  The options container is taken as built by
    [create_options]; the object field keeps the slots among its
    arguments; the owner link set on document references afterwards is
    no part of the schema data. *)
Definition __new__ (module name : string) (bases : list BaseClass)
    (attrs : OrderedDict.t AttrValue) (options : Options.t)
    (registry : Registry) : Document * Registry :=
  let fields := collect_fields bases attrs in
  let klass :=
    {| __module__ := module; __name__ := name;
       _fields := fields; _options := options;
       _field := DictField fields (Options.pattern_properties options)
                           (Options.additional_properties options) |} in
  (klass, <[cls_id klass := klass]> registry).

(** [key.startswith('_')]; the underscore is character 95. *)
Definition startswith_underscore (key : string) : bool :=
  match key with
  | String c _ => bool_decide (c = Ascii.ascii_of_nat 95)
  | _ => false
  end.

Section collect_options.
(** The values of options are whatever Python objects the classes hold;
    the method looks at two things only: whether a value is [None], and
    whether it is an unbound method ([inspect.ismethod(value) and
    value.im_self is None]), in which case [im_func] gives its function. *)
Context {V : Type}.
Variable is_None : V -> bool.
Variable im_func : V -> option V.

(** [not key.startswith('_') and value is not None] *)
Definition is_option (kv : string * V) : bool :=
  negb (startswith_underscore kv.1) && negb (is_None kv.2).

(** [DocumentMeta.collect_options].  A base is given by the members of its
    [_options] ([inspect.getmembers(base._options)]) when it has that
    attribute, the class body by the members of its [Options] attribute
    when it has one. *)
Definition collect_options (bases : list (option (list (string * V))))
    (Options_attr : option (list (string * V))) : gmap string V :=
  let options :=
    foldl (fun options base =>
             match base with
             | Some members =>
                 foldl (fun options kv =>
                          if is_option kv then <[kv.1 := kv.2]> options
                          else options) options members
             | None => options
             end) ∅ (reverse bases) in
  match Options_attr with
  | Some members =>
      foldl (fun options kv =>
               if is_option kv
               then let value := match im_func kv.2 with
                                 | Some function => function
                                 | None => kv.2
                                 end in
                    <[kv.1 := value]> options
               else options) options members
  | None => options
  end.

End collect_options.

End DocumentMeta.

(** ** Vocabulary for the statements *)

(** The scopes of a class body, in the order they are bound. *)
Definition scopes_of (attrs : OrderedDict.t DocumentMeta.AttrValue)
  : list DocumentMeta.Scope :=
  omap (fun kv => match kv.2 with
                  | DocumentMeta.AScope value => Some value
                  | _ => None
                  end) attrs.

(** An entry of the class body declares [name]: it binds [name] to a field
    or a [Var], or it is a scope with a field of that name. *)
Definition declares (name : string) (kv : string * DocumentMeta.AttrValue)
  : Prop :=
  match kv.2 with
  | DocumentMeta.AField _ => kv.1 = name
  | DocumentMeta.AScope value =>
      is_Some (OrderedDict.get name (DocumentMeta.__fields__ value))
  | DocumentMeta.AOther => False
  end.

(** The names a class body binds, each once, in the order in which they
    are bound first. *)
Definition first_bindings (body : list (string * DocumentMeta.AttrValue))
  : list string :=
  reverse (remove_dups (reverse (fst <$> body))).

Abbreviation FieldCompiler :=
  (Field -> Role -> ResolutionScope.t -> bool -> option nat ->
   M (mapping * mapping)).

(** A field compiler that leaves every set of the store as it found it. *)
Definition leaves_sets_unchanged (compile : FieldCompiler) : Prop :=
  forall f role res_scope ordered ref (h : Store) l,
    l ∈ dom h ->
    (compile f role res_scope ordered ref h).1 !! l = h !! l.

(** A field compiler whose outcome depends on the [ref_documents] argument
    through the members of the set only, not through where the set lives. *)
Definition reads_members_only (compile : FieldCompiler) : Prop :=
  forall f role res_scope ordered ref1 ref2 (h1 h2 : Store),
    members h1 ref1 = members h2 ref2 ->
    (compile f role res_scope ordered ref1 h1).2 =
    (compile f role res_scope ordered ref2 h2).2.

(** ** Sample declarations *)

Module Samples.

Definition options : Options.t :=
  {| Options.pattern_properties := [];
     Options.additional_properties := SAbsent;
     Options.min_properties := None;
     Options.max_properties := None;
     Options.title := None;
     Options.description := None;
     Options.default := None;
     Options.enum := None;
     Options.id := "";
     Options.schema_uri := Some "http://json-schema.org/draft-04/schema#";
     Options.definition_id := None;
     Options.roles_to_propagate := all_ |}.

(** The string fields of [tests/test_iter_methods.py]. *)
Definition a : Field := Scalar 1.
Definition b : Field := Scalar 2.
Definition c : Field := Scalar 3.
Definition d : Field := Scalar 4.
Definition e : Field := Scalar 5.

(** [Var({'role_1': a, ...})]: a [Var] built from a dictionary of role
    names. *)
Definition Var (branches : list (Role * Slot)) : Slot :=
  SVar ((fun kv => (exact kv.1, kv.2)) <$> branches).

(** The first field of [test_array_field]. *)
Definition array_field : Field :=
  ArrayField
    (Var [("role_1", SField a); ("role_2", SField b); ("role_none", SAbsent)])
    (Var [("role_3", SField c); ("role_4", SField d); ("role_1", SField e);
          ("role_none", SAbsent)]).

(** The second field of [test_not_field]. *)
Definition not_field : Field :=
  NotField
    (Var [("role_1", SField a); ("role_2", SField b); ("role_3", SAbsent)]).

(** [class A(Document): a = a; b = b] of [test_document_field]. *)
Definition A : Document :=
  (DocumentMeta.__new__ "samples" "A" [DocumentMeta.PlainBase]
     [("a", DocumentMeta.AField (SField a));
      ("b", DocumentMeta.AField (SField b))]
     options ∅).1.

(** [class Node(Document): next = DocumentField(Node)]: a document with
    a reference to itself under every role. *)
Definition Node : Document :=
  (DocumentMeta.__new__ "samples" "Node" [DocumentMeta.PlainBase]
     [("next", DocumentMeta.AField
                 (SField (DocumentField ("samples", "Node"))))]
     options ∅).1.

(** A document whose reference to itself is declared for [role_1] only. *)
Definition Guarded : Document :=
  (DocumentMeta.__new__ "samples" "Guarded" [DocumentMeta.PlainBase]
     [("name", DocumentMeta.AField (SField a));
      ("next", DocumentMeta.AField
                 (Var [("role_1",
                        SField (DocumentField ("samples", "Guarded")))]))]
     options ∅).1.

(** [Guarded] without its [next] field. *)
Definition Unguarded : Document :=
  (DocumentMeta.__new__ "samples" "Guarded" [DocumentMeta.PlainBase]
     [("name", DocumentMeta.AField (SField a))]
     options ∅).1.

Definition registry : Registry :=
  <[cls_id Guarded := Guarded]> (<[cls_id Node := Node]> (<[cls_id A := A]> ∅)).

(** A document with an explicitly empty [definition_id]. *)
Definition Anonymous : Document :=
  {| __module__ := "samples"; __name__ := "Anonymous";
     _fields := []; _field := DictField [] [] SAbsent;
     _options :=
       {| Options.pattern_properties := [];
          Options.additional_properties := SAbsent;
          Options.min_properties := None;
          Options.max_properties := None;
          Options.title := None;
          Options.description := None;
          Options.default := None;
          Options.enum := None;
          Options.id := "";
          Options.schema_uri := None;
          Options.definition_id := Some "";
          Options.roles_to_propagate := all_ |} |}.

(** A document with an explicit [definition_id]. *)
Definition Named : Document :=
  {| __module__ := "samples"; __name__ := "Named";
     _fields := []; _field := DictField [] [] SAbsent;
     _options :=
       {| Options.pattern_properties := [];
          Options.additional_properties := SAbsent;
          Options.min_properties := None;
          Options.max_properties := None;
          Options.title := None;
          Options.description := None;
          Options.default := None;
          Options.enum := None;
          Options.id := "";
          Options.schema_uri := None;
          Options.definition_id := Some "named";
          Options.roles_to_propagate := all_ |} |}.

(** A class body that declares [x] in two scopes and then binds [x]
    directly, and one that binds [x] first. *)
Definition scope_1 : DocumentMeta.Scope :=
  {| DocumentMeta.__matcher__ := exact "role_1";
     DocumentMeta.__fields__ := [("x", SField a)] |}.
Definition scope_2 : DocumentMeta.Scope :=
  {| DocumentMeta.__matcher__ := exact "role_2";
     DocumentMeta.__fields__ := [("x", SField b)] |}.
Definition shadowing_attrs : OrderedDict.t DocumentMeta.AttrValue :=
  [("s1", DocumentMeta.AScope scope_1);
   ("s2", DocumentMeta.AScope scope_2);
   ("x", DocumentMeta.AField (SField c))].
Definition scoped_attrs : OrderedDict.t DocumentMeta.AttrValue :=
  [("x", DocumentMeta.AField (SField c));
   ("s1", DocumentMeta.AScope scope_1);
   ("s2", DocumentMeta.AScope scope_2)].

(** A field compiler that emits an object schema listing, under
    [referenced], how many documents the [ref_documents] set holds. *)
Definition object_compiler : FieldCompiler :=
  fun f role res_scope ordered ref h =>
    (h, Ok (Mapping.empty ordered,
            Mapping.set "referenced"
              (JNum (Z.of_nat (size (members h ref))))
              (Mapping.set "type" (JStr "object") (Mapping.empty ordered)))).

(** A field compiler that fails. *)
Definition failing_compiler : FieldCompiler :=
  fun f role res_scope ordered ref h =>
    (h, Raise {| message := "invalid field"; steps := [OtherStep "field"] |}).

End Samples.

(** ** Further vocabulary *)

(** The fields a class body binds directly, in the order of the body. *)
Definition own_fields (attrs : OrderedDict.t DocumentMeta.AttrValue)
  : OrderedDict.t Slot :=
  omap (fun kv => match kv.2 with
                  | DocumentMeta.AField value => Some (kv.1, value)
                  | _ => None
                  end) attrs.

(** An entry of the class body that is no scope. *)
Definition not_a_scope (kv : string * DocumentMeta.AttrValue) : Prop :=
  match kv.2 with
  | DocumentMeta.AScope _ => False
  | _ => True
  end.

(** A mapping lists each key once: so a [dict] does, and an
    [OrderedDict] built by assignments. *)
Definition unique_keys (m : mapping) : Prop :=
  NoDup (fst <$> Mapping.items m).

(** The top-level keys [get_schema] sets before it merges the fragment
    in, in the order it sets them. *)
Definition top_level_keys (options : Options.t) (definitions : mapping)
  : list string :=
  (if decide (Options.id options = "") then [] else ["id"])
    ++ match Options.schema_uri options with
       | Some _ => ["$schema"]
       | None => []
       end
    ++ (if Mapping.truthy definitions then ["definitions"] else []).

(** A string with a dot in it; a class name, being an identifier, has
    none. *)
Fixpoint has_dot (s : string) : bool :=
  match s with
  | EmptyString => false
  | String c rest => bool_decide (c = Ascii.ascii_of_nat 46) || has_dot rest
  end.

(** One walk is the other with some of its fields left out; both end. *)
Definition prunes (selected all : option (list Field)) : Prop :=
  exists xs ys, selected = Some xs /\ all = Some ys /\ sublist xs ys.

(** The documents at hand hand [role] on to the documents they refer to:
    the [roles_to_propagate] option (line 53; [all_] unless it is set) of
    the class and of every registered document accepts the role. *)
Definition propagates (registry : Registry) (cls : Document) (role : Role)
  : Prop :=
  Options.roles_to_propagate (_options cls) role = true /\
  map_Forall (fun _ doc => Options.roles_to_propagate (_options doc) role = true)
             registry.

(** Every document reference among the fields of a walk points to a
    registered document; resolving any other reference is a [KeyError]. *)
Definition registered (registry : Registry) (fields : option (list Field))
  : bool :=
  match fields with
  | Some xs =>
      forallb (fun field =>
                 match field with
                 | DocumentField document_cls =>
                     bool_decide (is_Some (registry !! document_cls))
                 | _ => true
                 end) xs
  | None => true
  end.

(** ** Further sample declarations *)

Module MoreSamples.

(** The body of a class that binds [x], declares [x] in a scope and binds
    [x] again: [x = d; with Scope('role_1') as s1: s1.x = a; x = c]. *)
Definition rebound_body : list (string * DocumentMeta.AttrValue) :=
  [("x", DocumentMeta.AField (SField Samples.d));
   ("s1", DocumentMeta.AScope Samples.scope_1);
   ("x", DocumentMeta.AField (SField Samples.c))].

(** The body of a class that binds [next] to a string field first and to
    a reference to the class itself afterwards. *)
Definition relinked_body : list (string * DocumentMeta.AttrValue) :=
  [("next", DocumentMeta.AField (SField Samples.a));
   ("next", DocumentMeta.AField
              (SField (DocumentField ("samples", "Node"))))].

(** [class Ping(Document): partner = DocumentField(Pong)] and
    [class Pong(Document): partner = DocumentField(Ping)]. *)
Definition Ping : Document :=
  (DocumentMeta.__new__ "samples" "Ping" [DocumentMeta.PlainBase]
     [("partner", DocumentMeta.AField
                    (SField (DocumentField ("samples", "Pong"))))]
     Samples.options ∅).1.

Definition Pong : Document :=
  (DocumentMeta.__new__ "samples" "Pong" [DocumentMeta.PlainBase]
     [("partner", DocumentMeta.AField
                    (SField (DocumentField ("samples", "Ping"))))]
     Samples.options ∅).1.

Definition ring : Registry :=
  <[cls_id Pong := Pong]> (<[cls_id Ping := Ping]> ∅).

(** The body of [class B(A): c = c]. *)
Definition extending_attrs : OrderedDict.t DocumentMeta.AttrValue :=
  [("c", DocumentMeta.AField (SField Samples.c))].

(** The body of [class A(Document): a = a; b = b]. *)
Definition plain_attrs : OrderedDict.t DocumentMeta.AttrValue :=
  [("a", DocumentMeta.AField (SField Samples.a));
   ("b", DocumentMeta.AField (SField Samples.b))].

(** Option values: [None], strings, booleans, functions and methods. *)
Inductive PyValue : Type :=
| PyNone
| PyStr (s : string)
| PyBool (b : bool)
| PyFunction (name : string)
| PyMethod (bound : bool) (function : string).

Definition is_None (v : PyValue) : bool :=
  match v with PyNone => true | _ => false end.

Definition im_func (v : PyValue) : option PyValue :=
  match v with
  | PyMethod false function => Some (PyFunction function)
  | _ => None
  end.

(** The members of the options of a parent class and of the [Options]
    class of a child that sets [title = None]. *)
Definition parent_members : list (string * PyValue) :=
  [("__doc__", PyNone); ("additional_properties", PyBool false);
   ("definition_id", PyNone); ("title", PyStr "Parent")].

Definition child_members : list (string * PyValue) :=
  [("__module__", PyStr "samples"); ("description", PyStr "A child");
   ("title", PyNone)].

End MoreSamples.

(** * Properties *)

(** ** Induction over the field graph *)

Section Field_Slot_ind.
Variable P : Field -> Prop.
Variable Q : Slot -> Prop.
Hypothesis HScalar : forall uid, P (Scalar uid).
Hypothesis HArray : forall i a, Q i -> Q a -> P (ArrayField i a).
Hypothesis HDict : forall ps pps a,
  Forall (fun p => Q p.2) ps -> Forall (fun p => Q p.2) pps -> Q a ->
  P (DictField ps pps a).
Hypothesis HNot : forall s, Q s -> P (NotField s).
Hypothesis HOf : forall s, Q s -> P (OfField s).
Hypothesis HDocument : forall d, P (DocumentField d).
Hypothesis HAbsent : Q SAbsent.
Hypothesis HField : forall f, P f -> Q (SField f).
Hypothesis HTuple : forall fs, Forall P fs -> Q (STuple fs).
Hypothesis HVar : forall vs, Forall (fun v => Q v.2) vs -> Q (SVar vs).

Lemma Field_Slot_ind : (forall f, P f) /\ (forall s, Q s).
Proof.
  assert (HS : forall f, P f)
    by (fix IHf 1 with (IHs (s : Slot) {struct s} : Q s);
        [ intros [uid|i a|ps pps a|s|s|d];
          [ apply HScalar
          | apply HArray; apply IHs
          | apply HDict;
            [ revert ps; fix go 1; intros [|[n s] ps]; constructor;
              [apply IHs | apply go]
            | revert pps; fix go 1; intros [|[n s] pps]; constructor;
              [apply IHs | apply go]
            | apply IHs ]
          | apply HNot, IHs
          | apply HOf, IHs
          | apply HDocument ]
        | intros [|f|fs|vs];
          [ apply HAbsent
          | apply HField, IHf
          | apply HTuple; revert fs; fix go 1; intros [|f fs]; constructor;
            [apply IHf | apply go]
          | apply HVar; revert vs; fix go 1; intros [|[m s] vs]; constructor;
            [apply IHs | apply go] ] ]).
  split; [exact HS|].
  fix IHs 1. intros [|f|fs|vs].
  - apply HAbsent.
  - apply HField, HS.
  - apply HTuple. apply Forall_forall. intros; apply HS.
  - apply HVar. revert vs. fix go 1. intros [|[m s] vs]; constructor;
      [apply IHs | apply go].
Qed.

End Field_Slot_ind.

(** ** The walk never runs out of fuel *)

Lemma flat_mapM_is_Some {A B : Type} (f : A -> option (list B)) (l : list A) :
  Forall (fun x => is_Some (f x)) l -> is_Some (flat_mapM f l).
Proof.
  induction 1 as [|x l [ys Hx] _ [zs IH]]; simpl; [by eexists|].
  rewrite Hx, IH. by eexists.
Qed.

Lemma flat_mapM_app {A B : Type} (f : A -> option (list B)) (l1 l2 : list A) :
  flat_mapM f (l1 ++ l2) =
  match flat_mapM f l1, flat_mapM f l2 with
  | Some xs, Some ys => Some (xs ++ ys)
  | _, _ => None
  end.
Proof.
  induction l1 as [|x l1 IH]; simpl.
  - by destruct (flat_mapM f l2).
  - rewrite IH. destruct (f x), (flat_mapM f l1), (flat_mapM f l2); simpl;
      try done. by rewrite (assoc_L (++)).
Qed.

Section walk_total.
Variable role : Role.
Variable through : bool.
Variable enter : gset DocId -> DocId -> option (list Field).
Variable visited : gset DocId.
Hypothesis enter_total :
  forall d, d ∉ visited -> is_Some (enter ({[d]} ∪ visited) d).

Lemma resolve_and_walk_is_Some :
  (forall f, is_Some (Field_resolve_and_walk role through enter visited f)) /\
  (forall s, is_Some (Slot_resolve_and_walk role through enter visited s)).
Proof.
  apply Field_Slot_ind; simpl.
  - by eexists.
  - intros i a [xs ->] [ys ->]. by eexists.
  - intros ps pps a Hps Hpps [zs ->].
    destruct (flat_mapM_is_Some _ _ Hps) as [xs ->].
    destruct (flat_mapM_is_Some _ _ Hpps) as [ys ->]. by eexists.
  - intros s [xs ->]. by eexists.
  - intros s [xs ->]. by eexists.
  - intros d. destruct through; [|by eexists].
    case_decide; [by eexists|].
    destruct (enter_total d) as [xs ->]; [done|]. by eexists.
  - by eexists.
  - done.
  - intros fs Hfs. by apply flat_mapM_is_Some.
  - intros vs Hvs. induction Hvs as [|[m s] vs Hs _ IH]; simpl; [by eexists|].
    by destruct (m role).
Qed.

End walk_total.

Lemma resolve_and_walk_fuel_is_Some (registry : Registry) (role : Role)
    (through : bool) (fuel : nat) :
  forall (visited : gset DocId) (cls : Document),
    size (dom registry ∖ visited) < fuel ->
    is_Some (Document.resolve_and_walk_fuel registry fuel role through
                                            visited cls).
Proof.
  induction fuel as [|fuel IH]; intros visited cls Hfuel; [lia|].
  simpl. apply fmap_is_Some.
  apply resolve_and_walk_is_Some. intros d Hd.
  destruct (registry !! d) as [target|] eqn:Hlook; [|by eexists].
  apply IH.
  assert (dom registry ∖ ({[d]} ∪ visited) ⊂ dom registry ∖ visited) as Hsub.
  { apply elem_of_dom_2 in Hlook. split.
    - intros x. rewrite !elem_of_difference, not_elem_of_union. tauto.
    - intros Hsub. pose proof (Hsub d) as Hin.
      rewrite !elem_of_difference, not_elem_of_union, elem_of_singleton
        in Hin. tauto. }
  apply subset_size in Hsub. lia.
Qed.

Lemma resolve_and_walk_total (registry : Registry) (cls : Document)
    (role : Role) (through : bool) (visited : gset DocId) :
  is_Some (Document.resolve_and_walk registry cls role through visited).
Proof.
  apply resolve_and_walk_fuel_is_Some.
  assert (size (dom registry ∖ visited) <= size (dom registry))
    by (apply subseteq_size; intros x; rewrite elem_of_difference; tauto).
  rewrite size_dom in *. lia.
Qed.

(** ** Recursion detection *)

Lemma is_recursive_loop_true (cls : Document) (fields : list Field) :
  Document.is_recursive_loop cls fields = true <->
  DocumentField (cls_id cls) ∈ fields.
Proof.
  induction fields as [|f fields IH]; simpl.
  - split; [done|]. by intros ?%elem_of_nil.
  - rewrite elem_of_cons, <- IH.
    destruct f; simpl; try (split; [by right|by intros [?|?]]).
    case_bool_decide; subst; [by split; [left|]|].
    split; [by right|]. intros [?|?]; [congruence|done].
Qed.

Lemma Slot_resolve_and_walk_unmatched (role : Role) (through : bool)
    (enter : gset DocId -> DocId -> option (list Field))
    (visited : gset DocId) (values : list (Matcher * Slot)) :
  Forall (fun v => v.1 role = false) values ->
  Slot_resolve_and_walk role through enter visited (SVar values) = Some [].
Proof.
  induction 1 as [|[m s] vs Hm _ IH]; simpl in *; [done|]. by rewrite Hm.
Qed.

Lemma Field_resolve_and_walk_drop_unmatched (role : Role) (through : bool)
    (enter : gset DocId -> DocId -> option (list Field))
    (visited : gset DocId) (name : string) (values : list (Matcher * Slot))
    (ps1 ps2 pps : list (string * Slot)) (ap : Slot) :
  Forall (fun v => v.1 role = false) values ->
  tail <$> Field_resolve_and_walk role through enter visited
             (DictField (ps1 ++ (name, SVar values) :: ps2) pps ap) =
  tail <$> Field_resolve_and_walk role through enter visited
             (DictField (ps1 ++ ps2) pps ap).
Proof.
  intros Hvs.
  change (Field_resolve_and_walk role through enter visited (DictField ?ps pps ap))
    with (match flat_mapM (fun p => Slot_resolve_and_walk role through enter visited p.2) ps,
                flat_mapM (fun p => Slot_resolve_and_walk role through enter visited p.2) pps,
                Slot_resolve_and_walk role through enter visited ap with
          | Some xs, Some ys, Some zs => Some (DictField ps pps ap :: xs ++ ys ++ zs)
          | _, _, _ => None
          end).
  rewrite !flat_mapM_app. cbn [flat_mapM snd].
  rewrite (Slot_resolve_and_walk_unmatched _ _ _ _ _ Hvs).
  repeat (case_match; simplify_eq/=; try done).
Qed.

Lemma Slot_resolve_and_walk_resolve (role : Role) (through : bool)
    (enter : gset DocId -> DocId -> option (list Field))
    (visited : gset DocId) (s : Slot) :
  Slot_resolve_and_walk role through enter visited s =
  Slot_resolve_and_walk role through enter visited (resolve role s).
Proof.
  revert s.
  apply (Field_Slot_ind (fun _ => True)
           (fun s => Slot_resolve_and_walk role through enter visited s =
                     Slot_resolve_and_walk role through enter visited
                       (resolve role s))); try done.
  intros vs Hvs. induction Hvs as [|[m p] vs Hp _ IH]; [done|].
  simpl in *. by destruct (m role).
Qed.

Lemma is_recursive_drop_unmatched (registry : Registry)
    (cls rest : Document) (role : Role) (name : string)
    (values : list (Matcher * Slot)) (ps1 ps2 pps : list (string * Slot))
    (ap : Slot) :
  cls_id rest = cls_id cls ->
  _field cls = DictField (ps1 ++ (name, SVar values) :: ps2) pps ap ->
  _field rest = DictField (ps1 ++ ps2) pps ap ->
  Forall (fun v => v.1 role = false) values ->
  Document.is_recursive registry cls role =
  Document.is_recursive registry rest role.
Proof.
  intros Hid Hcls Hrest Hvs.
  unfold Document.is_recursive, Document.resolve_and_walk.
  cbn [Document.resolve_and_walk_fuel].
  rewrite Hcls, Hrest, Hid.
  rewrite (Field_resolve_and_walk_drop_unmatched _ _ _ _ name values) by done.
  destruct (tail <$> _) as [fields|]; [|done].
  apply eq_true_iff_eq. rewrite !is_recursive_loop_true. by rewrite Hid.
Qed.

(** C2: [is_recursive(role)] is true exactly when the role-resolved walk
    through documents, started with [visited_documents = {cls}], meets a
    document reference to the class itself; that walk always ends, on any
    document graph, cyclic ones included; the walk of a slot is the walk
    of what the slot resolves to under the role, so a branch that does not
    match is never looked at; and a self-reference that sits only behind a
    [Var] none of whose branches matches the role leaves the answer
    false. *)
Theorem is_recursive_iff_self_reference (registry : Registry)
    (cls : Document) (role : Role) :
  (exists fields,
     Document.resolve_and_walk registry cls role true {[cls_id cls]}
       = Some fields /\
     (Document.is_recursive registry cls role = true <->
      DocumentField (cls_id cls) ∈ fields)) /\
  (forall through enter visited s,
     Slot_resolve_and_walk role through enter visited s =
     Slot_resolve_and_walk role through enter visited (resolve role s)) /\
  (forall (rest : Document) name values ps1 ps2 pps ap,
     cls_id rest = cls_id cls ->
     _field cls = DictField (ps1 ++ (name, SVar values) :: ps2) pps ap ->
     _field rest = DictField (ps1 ++ ps2) pps ap ->
     Forall (fun v => v.1 role = false) values ->
     Document.is_recursive registry rest role = false ->
     Document.is_recursive registry cls role = false).
Proof.
  split_and!.
  - destruct (resolve_and_walk_total registry cls role true {[cls_id cls]})
      as [fields Hwalk].
    exists fields. split; [done|].
    unfold Document.is_recursive. rewrite Hwalk.
    apply is_recursive_loop_true.
  - intros through enter visited s. apply Slot_resolve_and_walk_resolve.
  - intros rest name values ps1 ps2 pps ap Hid Hcls Hrest Hvs Hfalse.
    by rewrite (is_recursive_drop_unmatched registry cls rest role name values
                  ps1 ps2 pps ap).
Qed.

(** ** Role-conditional slots *)

Lemma slot_iter_fields_SVar (values : list (Matcher * Slot)) :
  slot_iter_fields (SVar values) =
  values ≫= (fun v => slot_iter_fields v.2).
Proof.
  induction values as [|[m s] vs IH]; [done|].
  simpl in *. by rewrite IH.
Qed.

Lemma resolve_no_match (role : Role) (values : list (Matcher * Slot)) :
  (forall v, v ∈ values -> v.1 role = false) ->
  resolve role (SVar values) = SAbsent.
Proof.
  induction values as [|[m s] vs IH]; intros Hvs; [done|].
  pose proof (Hvs (m, s) ltac:(left)) as Hm. simpl in *. rewrite Hm.
  apply IH. intros v Hv. apply Hvs. by right.
Qed.

Lemma resolve_only_match (role : Role) (values : list (Matcher * Slot))
    (payload : Slot) :
  (exists m, (m, payload) ∈ values /\ m role = true) ->
  (forall v, v ∈ values -> v.1 role = true -> v.2 = payload) ->
  resolve role (SVar values) = resolve role payload.
Proof.
  induction values as [|[m s] vs IH]; intros (m0 & Hin & Hm0) Huniq.
  - by apply elem_of_nil in Hin.
  - simpl in *. destruct (m role) eqn:Hm.
    + pose proof (Huniq (m, s) ltac:(left) Hm) as Hs. simpl in Hs.
      by rewrite Hs.
    + apply IH.
      * exists m0. split; [|done].
        apply elem_of_cons in Hin as [?|?]; [congruence|done].
      * intros v Hv. apply Huniq. by right.
Qed.

Lemma exact_true (r role : Role) : exact r role = true <-> role = r.
Proof. unfold exact. by rewrite bool_decide_eq_true. Qed.

Lemma flat_map_middle {A B : Type} (f : A -> list B) (l1 l2 : list A) (x : A) :
  flat_map f (l1 ++ x :: l2) = flat_map f l1 ++ f x ++ flat_map f l2.
Proof. by rewrite flat_map_app. Qed.

(** C7: for a field one of whose slots is a [Var] with the branches
    [{r1: a, r2: b, rN: None}] (in whatever order the dictionary lists
    them), [iter_fields()] yields for that slot the fields of [a] and of
    [b] together, whatever the role; [resolve_and_iter_fields] yields for
    it what [a] gives under [r1], what [b] gives under [r2], and nothing
    under [rN] or under a role that is none of the three. *)
Theorem var_slot_role_disjointness (registry : Registry) (f : Field)
    (before after : list Slot)
    (values : list (Matcher * Slot)) (r1 r2 rN : Role) (a b : Slot) :
  values ≡ₚ [(exact r1, a); (exact r2, b); (exact rN, SAbsent)] ->
  r1 <> r2 -> r1 <> rN -> r2 <> rN ->
  slots_of f = before ++ SVar values :: after ->
  Field_iter_fields registry f ≡ₚ
    flat_map slot_iter_fields before
      ++ (slot_iter_fields a ++ slot_iter_fields b)
      ++ flat_map slot_iter_fields after
  /\ Field_resolve_and_iter_fields registry r1 f =
       flat_map (slot_resolve_and_iter_fields r1) before
         ++ slot_resolve_and_iter_fields r1 a
         ++ flat_map (slot_resolve_and_iter_fields r1) after
  /\ Field_resolve_and_iter_fields registry r2 f =
       flat_map (slot_resolve_and_iter_fields r2) before
         ++ slot_resolve_and_iter_fields r2 b
         ++ flat_map (slot_resolve_and_iter_fields r2) after
  /\ (forall role,
        role = rN \/ (role <> r1 /\ role <> r2 /\ role <> rN) ->
        Field_resolve_and_iter_fields registry role f =
          flat_map (slot_resolve_and_iter_fields role) before
            ++ flat_map (slot_resolve_and_iter_fields role) after).
Proof.
  intros Hperm H12 H1N H2N Hslots.
  assert (Field_iter_fields registry f
          = flat_map slot_iter_fields (slots_of f)) as Hiter
    by (destruct f; try done; by destruct before).
  assert (forall role,
            Field_resolve_and_iter_fields registry role f
            = flat_map (slot_resolve_and_iter_fields role) (slots_of f))
    as Hresolve
    by (intros role; destruct f; try done; by destruct before).
  rewrite Hiter, !Hresolve, Hslots, !flat_map_middle.
  assert (forall v, v ∈ values <->
            v = (exact r1, a) \/ v = (exact r2, b) \/ v = (exact rN, SAbsent))
    as Hin.
  { intros v. rewrite Hperm. rewrite !elem_of_cons, elem_of_nil. tauto. }
  repeat split.
  - rewrite slot_iter_fields_SVar, Hperm. simpl.
    by rewrite !app_nil_r.
  - unfold slot_resolve_and_iter_fields at 2.
    rewrite (resolve_only_match r1 values a); [done| |].
    + exists (exact r1). split; [apply Hin; by left | by apply exact_true].
    + intros v [-> | [-> | ->]]%Hin; simpl; [done| |];
        intros ?%exact_true; congruence.
  - unfold slot_resolve_and_iter_fields at 2.
    rewrite (resolve_only_match r2 values b); [done| |].
    + exists (exact r2). split; [apply Hin; right; by left | by apply exact_true].
    + intros v [-> | [-> | ->]]%Hin; simpl; [|done|];
        intros ?%exact_true; congruence.
  - intros role Hrole. rewrite Hresolve, Hslots, flat_map_middle.
    unfold slot_resolve_and_iter_fields at 2.
    destruct Hrole as [Heq|(Hn1 & Hn2 & HnN)].
    + subst role. rewrite (resolve_only_match rN values SAbsent); [done| |].
      * exists (exact rN).
        split; [apply Hin; right; by right | by apply exact_true].
      * intros v [-> | [-> | ->]]%Hin; simpl; [| |done];
          intros ?%exact_true; congruence.
    + rewrite resolve_no_match; [done|].
      intros v [-> | [-> | ->]]%Hin; simpl;
        apply not_true_is_false; intros ?%exact_true; congruence.
Qed.

(** ** [get_definitions_and_schema], case by case *)

Section get_definitions_and_schema_cases.
Variable DEFAULT_ROLE : Role.
Variable registry : Registry.
Variable compile : FieldCompiler.

Lemma get_definitions_and_schema_plain (cls : Document) (role : Role)
    (res_scope : ResolutionScope.t) (ordered : bool) (ref : option nat)
    (h : Store) :
  Document.is_recursive registry cls DEFAULT_ROLE = false ->
  Document.get_definitions_and_schema DEFAULT_ROLE registry compile
    cls role res_scope ordered ref h =
  processing (DocumentStep (cls_id cls) role)
    (compile (_field cls) role res_scope ordered ref) h.
Proof.
  intros Hrec. unfold Document.get_definitions_and_schema.
  rewrite Hrec. unfold bind, ret, processing.
  by destruct (compile _ _ _ _ _ _) as [h' [[definitions schema]|e]].
Qed.

Lemma get_definitions_and_schema_recursive (cls : Document) (role : Role)
    (res_scope : ResolutionScope.t) (ordered : bool) (ref : option nat)
    (h : Store) :
  Document.is_recursive registry cls DEFAULT_ROLE = true ->
  let l := fresh (dom h) in
  let h0 := <[l := {[cls_id cls]} ∪ members h ref]> h in
  let scope :=
    ResolutionScope.replace_output res_scope
      (ResolutionScope.base res_scope) in
  Document.get_definitions_and_schema DEFAULT_ROLE registry compile
    cls role res_scope ordered ref h =
  match compile (_field cls) role scope ordered (Some l) h0 with
  | (h', Ok (definitions, schema)) =>
      (h', Ok (Mapping.set (Document.get_definition_id cls) (JMap schema)
                           definitions,
               ResolutionScope.create_ref scope
                 (Document.get_definition_id cls)))
  | (h', Raise e) =>
      (h', Raise (push_step (DocumentStep (cls_id cls) role) e))
  end.
Proof.
  intros Hrec l h0 scope. unfold Document.get_definitions_and_schema.
  rewrite Hrec.
  unfold bind, ret, processing, truthy_set, copy_set, new_set, set_add.
  assert (forall s : gset DocId, s = members h ref ->
            <[l := {[cls_id cls]} ∪ default ∅ (<[l := s]> h !! l)]>
              (<[l := s]> h) = h0) as Hstore.
  { intros s ->. rewrite lookup_insert_eq. simpl.
    by rewrite insert_insert_eq. }
  case_bool_decide as Hempty; simpl; fold l.
  - rewrite (Hstore ∅) by done.
    by destruct (compile _ _ _ _ _ _) as [h' [[definitions schema]|e]].
  - rewrite (Hstore _ eq_refl).
    by destruct (compile _ _ _ _ _ _) as [h' [[definitions schema]|e]].
Qed.

End get_definitions_and_schema_cases.

(** ** Mappings *)

Lemma OrderedDict_get_set_eq {A : Type} (key : string) (value : A)
    (d : OrderedDict.t A) :
  OrderedDict.get key (OrderedDict.set key value d) = Some value.
Proof.
  induction d as [|[k v] d IH]; simpl.
  - by rewrite decide_True.
  - destruct (decide (k = key)) as [->|Hne]; simpl.
    + by rewrite decide_True.
    + by rewrite decide_False.
Qed.

Lemma OrderedDict_get_set_ne {A : Type} (key key' : string) (value : A)
    (d : OrderedDict.t A) :
  key <> key' ->
  OrderedDict.get key' (OrderedDict.set key value d) = OrderedDict.get key' d.
Proof.
  intros Hne. induction d as [|[k v] d IH]; simpl.
  - by rewrite decide_False.
  - destruct (decide (k = key)) as [->|Hk]; simpl.
    + by rewrite !decide_False.
    + by rewrite IH.
Qed.

Lemma Mapping_get_set_eq (key : string) (value : json) (m : mapping) :
  Mapping.get key (Mapping.set key value m) = Some value.
Proof.
  destruct m; simpl; [apply lookup_insert_eq | apply OrderedDict_get_set_eq].
Qed.

(** ** Definition extraction *)

Section extraction.
Variable DEFAULT_ROLE : Role.
Variable registry : Registry.
Variable compile : FieldCompiler.

(** C4: when the document is treated as recursive, the nested compilation
    is handed a set that holds the document itself besides the members of
    the caller's set, and a resolution scope whose output is the base of
    the scope that came in. *)
Theorem recursive_document_joins_ref_documents (cls : Document)
    (role : Role) (res_scope : ResolutionScope.t) (ordered : bool)
    (ref : option nat) (h : Store) :
  Document.is_recursive registry cls DEFAULT_ROLE = true ->
  exists (l : nat) (h0 : Store) (scope : ResolutionScope.t),
    (l ∉ dom h) /\
    (forall l', l' <> l -> h0 !! l' = h !! l') /\
    cls_id cls ∈ members h0 (Some l) /\
    members h0 (Some l) = {[cls_id cls]} ∪ members h ref /\
    ResolutionScope.output scope = ResolutionScope.base res_scope /\
    ResolutionScope.base scope = ResolutionScope.base res_scope /\
    ResolutionScope.current scope = ResolutionScope.current res_scope /\
    Document.get_definitions_and_schema DEFAULT_ROLE registry compile
      cls role res_scope ordered ref h =
    match compile (_field cls) role scope ordered (Some l) h0 with
    | (h', Ok (definitions, schema)) =>
        (h', Ok (Mapping.set (Document.get_definition_id cls) (JMap schema)
                             definitions,
                 ResolutionScope.create_ref scope
                   (Document.get_definition_id cls)))
    | (h', Raise e) =>
        (h', Raise (push_step (DocumentStep (cls_id cls) role) e))
    end.
Proof.
  intros Hrec.
  exists (fresh (dom h)),
         (<[fresh (dom h) := {[cls_id cls]} ∪ members h ref]> h),
         (ResolutionScope.replace_output res_scope
            (ResolutionScope.base res_scope)).
  split_and!; try done;
    [| | | | by apply get_definitions_and_schema_recursive].
  - apply is_fresh.
  - intros l' Hne. by rewrite lookup_insert_ne.
  - unfold members at 1. rewrite lookup_insert_eq. simpl. set_solver.
  - unfold members at 1. by rewrite lookup_insert_eq.
Qed.

(** C9: a failure of the compilation of the field tree leaves
    [get_definitions_and_schema] as a failure whose trail starts with the
    step of this document class and this role, and no failure leaves it
    any other way. *)
Theorem compile_failure_carries_document_step (cls : Document)
    (role : Role) (res_scope : ResolutionScope.t) (ordered : bool)
    (ref : option nat) (h : Store) :
  let is_recursive := Document.is_recursive registry cls DEFAULT_ROLE in
  let scope :=
    if is_recursive
    then ResolutionScope.replace_output res_scope
           (ResolutionScope.base res_scope)
    else res_scope in
  let ref' := if is_recursive then Some (fresh (dom h)) else ref in
  let h0 :=
    if is_recursive
    then <[fresh (dom h) := {[cls_id cls]} ∪ members h ref]> h
    else h in
  (forall h' e,
     compile (_field cls) role scope ordered ref' h0 = (h', Raise e) ->
     Document.get_definitions_and_schema DEFAULT_ROLE registry compile
       cls role res_scope ordered ref h =
     (h', Raise (push_step (DocumentStep (cls_id cls) role) e))) /\
  (forall h' e',
     Document.get_definitions_and_schema DEFAULT_ROLE registry compile
       cls role res_scope ordered ref h = (h', Raise e') ->
     exists e,
       compile (_field cls) role scope ordered ref' h0 = (h', Raise e) /\
       e' = push_step (DocumentStep (cls_id cls) role) e).
Proof.
  intros is_recursive scope ref' h0.
  destruct (Document.is_recursive registry cls DEFAULT_ROLE) eqn:Hrec;
    subst is_recursive scope ref' h0; simpl.
  - rewrite get_definitions_and_schema_recursive by done. simpl.
    split.
    + by intros h' e ->.
    + intros h' e'.
      destruct (compile _ _ _ _ _ _) as [h1 [[definitions schema]|e]];
        intros [= <- <-]. by exists e.
  - rewrite get_definitions_and_schema_plain by done. unfold processing.
    split.
    + by intros h' e ->.
    + intros h' e'.
      destruct (compile _ _ _ _ _ _) as [h1 [[definitions schema]|e]];
        intros [= <- <-]. by exists e.
Qed.

(** C10: with a field compiler that leaves the sets of the store alone,
    every set that exists before the call has the same members after it,
    the caller's [ref_documents] among them; for a recursive document the
    set that receives the document is a new one. *)
Theorem caller_ref_documents_unchanged (cls : Document) (role : Role)
    (res_scope : ResolutionScope.t) (ordered : bool) (ref : option nat)
    (h : Store) :
  leaves_sets_unchanged compile ->
  let h' :=
    (Document.get_definitions_and_schema DEFAULT_ROLE registry compile
       cls role res_scope ordered ref h).1 in
  (forall l, l ∈ dom h -> h' !! l = h !! l) /\
  (forall l, ref = Some l -> l ∈ dom h -> members h' ref = members h ref) /\
  (Document.is_recursive registry cls DEFAULT_ROLE = true ->
   (fresh (dom h) ∉ dom h) /\
   members h' (Some (fresh (dom h))) = {[cls_id cls]} ∪ members h ref).
Proof.
  intros Hframe h'.
  assert (forall l, l ∈ dom h -> h' !! l = h !! l) as Hsame.
  { intros l Hl. subst h'.
    destruct (Document.is_recursive registry cls DEFAULT_ROLE) eqn:Hrec.
    - rewrite get_definitions_and_schema_recursive by done. simpl.
      pose proof (Hframe (_field cls) role
        (ResolutionScope.replace_output res_scope
           (ResolutionScope.base res_scope)) ordered (Some (fresh (dom h)))
        (<[fresh (dom h) := {[cls_id cls]} ∪ members h ref]> h) l) as Hl'.
      destruct (compile _ _ _ _ _ _) as [h1 [[definitions schema]|e]];
        simpl in *; (rewrite Hl' by (rewrite dom_insert; set_solver));
        apply lookup_insert_ne; intros <-; by apply is_fresh in Hl.
    - rewrite get_definitions_and_schema_plain by done. unfold processing.
      pose proof (Hframe (_field cls) role res_scope ordered ref h l Hl)
        as Hl'.
      by destruct (compile _ _ _ _ _ _) as [h1 [[definitions schema]|e]]. }
  split; [done|]. split.
  - intros l -> Hl. unfold members. by rewrite Hsame.
  - intros Hrec. split; [apply is_fresh|].
    subst h'. rewrite get_definitions_and_schema_recursive by done. simpl.
    pose proof (Hframe (_field cls) role
      (ResolutionScope.replace_output res_scope
         (ResolutionScope.base res_scope)) ordered (Some (fresh (dom h)))
      (<[fresh (dom h) := {[cls_id cls]} ∪ members h ref]> h)
      (fresh (dom h))) as Hl'.
    destruct (compile _ _ _ _ _ _) as [h1 [[definitions schema]|e]];
      simpl in *; (rewrite Hl' by (rewrite dom_insert; set_solver));
      by rewrite lookup_insert_eq.
Qed.

End extraction.

Section idempotence.
Variable DEFAULT_ROLE : Role.
Variable registry : Registry.
Variable compile : FieldCompiler.

(** C3: for a document treated as recursive, the fragment returned is the
    reference [res_scope.create_ref(definition_id)] made from the scope
    after its output was reset to the base, the definitions returned hold
    the compiled fragment under the definition id, and a second
    compilation with the same arguments returns the same definitions and
    the same fragment. *)
Theorem recursive_document_is_extracted (cls : Document) (role : Role)
    (res_scope : ResolutionScope.t) (ordered : bool) (ref : option nat)
    (h h1 : Store) (definitions schema : mapping) :
  leaves_sets_unchanged compile ->
  reads_members_only compile ->
  Document.is_recursive registry cls DEFAULT_ROLE = true ->
  (forall l, ref = Some l -> l ∈ dom h) ->
  Document.get_definitions_and_schema DEFAULT_ROLE registry compile
    cls role res_scope ordered ref h = (h1, Ok (definitions, schema)) ->
  let scope :=
    ResolutionScope.replace_output res_scope
      (ResolutionScope.base res_scope) in
  let definition_id := Document.get_definition_id cls in
  schema = ResolutionScope.create_ref scope definition_id /\
  (exists fragment definitions0,
     compile (_field cls) role scope ordered (Some (fresh (dom h)))
       (<[fresh (dom h) := {[cls_id cls]} ∪ members h ref]> h)
       = (h1, Ok (definitions0, fragment)) /\
     definitions = Mapping.set definition_id (JMap fragment) definitions0 /\
     Mapping.get definition_id definitions = Some (JMap fragment)) /\
  (Document.get_definitions_and_schema DEFAULT_ROLE registry compile
     cls role res_scope ordered ref h1).2 = Ok (definitions, schema).
Proof.
  intros Hframe Hext Hrec Href Hrun scope definition_id.
  rewrite get_definitions_and_schema_recursive in Hrun by done.
  fold scope definition_id in Hrun.
  destruct (compile _ _ _ _ _ _) as [h' [[definitions0 fragment]|e]]
    eqn:Hcompile; [|done].
  injection Hrun as -> <- <-.
  split; [done|]. split.
  { exists fragment, definitions0. split_and!; [done..|].
    apply Mapping_get_set_eq. }
  assert (members h1 ref = members h ref) as Hmembers.
  { destruct ref as [l|]; [|done]. unfold members.
    pose proof (Hframe (_field cls) role scope ordered (Some (fresh (dom h)))
      (<[fresh (dom h) := {[cls_id cls]} ∪ members h (Some l)]> h) l) as Hl.
    rewrite Hcompile in Hl. simpl in Hl.
    rewrite Hl by (rewrite dom_insert, elem_of_union; right; by apply Href).
    rewrite lookup_insert_ne; [done|].
    intros <-. by apply (is_fresh (dom h)), Href. }
  rewrite get_definitions_and_schema_recursive by done.
  fold scope definition_id.
  pose proof (Hext (_field cls) role scope ordered
    (Some (fresh (dom h1))) (Some (fresh (dom h)))
    (<[fresh (dom h1) := {[cls_id cls]} ∪ members h1 ref]> h1)
    (<[fresh (dom h) := {[cls_id cls]} ∪ members h ref]> h)) as Hsame.
  rewrite Hcompile in Hsame.
  assert (members (<[fresh (dom h1) := {[cls_id cls]} ∪ members h1 ref]> h1)
                  (Some (fresh (dom h1))) =
          members (<[fresh (dom h) := {[cls_id cls]} ∪ members h ref]> h)
                  (Some (fresh (dom h)))) as Hhanded
    by (unfold members at 1 3; by rewrite !lookup_insert_eq, Hmembers).
  specialize (Hsame Hhanded). revert Hsame.
  destruct (compile _ _ _ _ (Some (fresh (dom h1))) _) as [h2 r2].
  simpl. by intros ->.
Qed.

End idempotence.

(** ** The role handed to recursion detection *)

Lemma Guarded_field :
  _field Samples.Guarded =
  DictField
    ([("name", SField Samples.a)]
       ++ ("next", SVar [(exact "role_1",
                          SField (DocumentField ("samples", "Guarded")))])
       :: [])
    [] SAbsent.
Proof. reflexivity. Qed.

Lemma Unguarded_not_recursive (role : Role) :
  Document.is_recursive Samples.registry Samples.Unguarded role = false.
Proof. reflexivity. Qed.

Lemma Guarded_not_recursive (role : Role) :
  role <> "role_1" ->
  Document.is_recursive Samples.registry Samples.Guarded role = false.
Proof.
  intros Hrole.
  rewrite (is_recursive_drop_unmatched Samples.registry Samples.Guarded
             Samples.Unguarded role "next"
             [(exact "role_1", SField (DocumentField ("samples", "Guarded")))]
             [("name", SField Samples.a)] [] [] SAbsent);
    [apply Unguarded_not_recursive | done | apply Guarded_field | done |].
  constructor; [|constructor]. simpl.
  apply not_true_is_false. by intros ?%exact_true.
Qed.

Lemma Guarded_recursive_role_1 :
  Document.is_recursive Samples.registry Samples.Guarded "role_1" = true.
Proof. vm_compute. reflexivity. Qed.

(** C1: the sample document [Guarded] refers to itself under [role_1]
    only.  Compiled under [role_1] it is recursive for that role, yet
    [get_definitions_and_schema] asks [is_recursive()] without the role,
    hence for [DEFAULT_ROLE], and so hands the scope and the
    [ref_documents] argument on as they came and returns what the field
    compiler returns: no entry is added to the definitions and no
    reference replaces the fragment. *)
Theorem get_definitions_and_schema_asks_default_role (DEFAULT_ROLE : Role)
    (compile : FieldCompiler) (res_scope : ResolutionScope.t)
    (ordered : bool) (ref : option nat) (h : Store) :
  DEFAULT_ROLE <> "role_1" ->
  Document.is_recursive Samples.registry Samples.Guarded "role_1" = true /\
  Document.get_definitions_and_schema DEFAULT_ROLE Samples.registry compile
    Samples.Guarded "role_1" res_scope ordered ref h =
  processing (DocumentStep (cls_id Samples.Guarded) "role_1")
    (compile (_field Samples.Guarded) "role_1" res_scope ordered ref) h.
Proof.
  intros Hdefault. split; [apply Guarded_recursive_role_1|].
  apply get_definitions_and_schema_plain.
  by apply Guarded_not_recursive.
Qed.

Lemma get_definitions_and_schema_asks_default_role_witness :
  "default" <> "role_1" /\
  Document.is_recursive Samples.registry Samples.Guarded "role_1" = true /\
  Document.get_definitions_and_schema "default" Samples.registry
    Samples.object_compiler Samples.Guarded "role_1"
    ResolutionScope.default false None ∅ =
  processing (DocumentStep (cls_id Samples.Guarded) "role_1")
    (Samples.object_compiler (_field Samples.Guarded) "role_1"
       ResolutionScope.default false None) ∅.
Proof.
  split; [discriminate|].
  apply (get_definitions_and_schema_asks_default_role "default"
           Samples.object_compiler ResolutionScope.default false None ∅).
  discriminate.
Defined.

(** ** The keys of a schema *)

Lemma OrderedDict_keys_set {A : Type} (key : string) (value : A)
    (d : OrderedDict.t A) :
  list_to_set (C := gset string) (OrderedDict.keys (OrderedDict.set key value d))
  = {[key]} ∪ list_to_set (OrderedDict.keys d).
Proof.
  unfold OrderedDict.keys. induction d as [|[k v] d IH].
  - set_solver.
  - cbn [OrderedDict.set]. destruct (decide (k = key)) as [->|Hne].
    + rewrite !fmap_cons, !list_to_set_cons. set_solver.
    + rewrite !fmap_cons, !list_to_set_cons, IH. set_solver.
Qed.

Lemma Mapping_keys_Dict (d : gmap string json) : Mapping.keys (Dict d) = dom d.
Proof.
  unfold Mapping.keys. simpl. apply set_eq. intros k.
  rewrite elem_of_list_to_set, list_elem_of_fmap, elem_of_dom. split.
  - intros [[k' v] [-> Hin%elem_of_map_to_list]]. by exists v.
  - intros [v Hv]. exists (k, v). by rewrite elem_of_map_to_list.
Qed.

Lemma Mapping_keys_empty (ordered : bool) :
  Mapping.keys (Mapping.empty ordered) = ∅.
Proof.
  destruct ordered; [done|]. unfold Mapping.empty.
  by rewrite Mapping_keys_Dict, dom_empty_L.
Qed.

Lemma Mapping_keys_set (key : string) (value : json) (m : mapping) :
  Mapping.keys (Mapping.set key value m) = {[key]} ∪ Mapping.keys m.
Proof.
  destruct m as [d|d]; cbn [Mapping.set].
  - by rewrite !Mapping_keys_Dict, dom_insert_L.
  - apply OrderedDict_keys_set.
Qed.

Lemma Mapping_keys_update (m other : mapping) :
  Mapping.keys (Mapping.update m other) = Mapping.keys m ∪ Mapping.keys other.
Proof.
  unfold Mapping.update. unfold Mapping.keys at 3.
  generalize (Mapping.items other). intros l. revert m.
  induction l as [|[k v] l IH]; intros m; simpl.
  - set_solver.
  - rewrite IH, Mapping_keys_set. set_solver.
Qed.

Lemma Mapping_is_ordered_set (key : string) (value : json) (m : mapping) :
  Mapping.is_ordered (Mapping.set key value m) = Mapping.is_ordered m.
Proof. by destruct m. Qed.

Lemma Mapping_is_ordered_update (m other : mapping) :
  Mapping.is_ordered (Mapping.update m other) = Mapping.is_ordered m.
Proof.
  unfold Mapping.update. generalize (Mapping.items other). intros l.
  revert m. induction l as [|[k v] l IH]; intros m; simpl; [done|].
  by rewrite IH, Mapping_is_ordered_set.
Qed.

Lemma Mapping_is_ordered_empty (ordered : bool) :
  Mapping.is_ordered (Mapping.empty ordered) = ordered.
Proof. by destruct ordered. Qed.

(** C6: when the compilation returns its definitions and a fragment that
    does not itself carry [$schema] or [definitions], nor [id] for a
    document without one, [get_schema] returns a mapping that has [id]
    exactly when the [id] option is not empty, [$schema] exactly when
    [schema_uri] is not [None], [definitions] exactly when the definitions
    are not empty, and besides these the keys of the fragment; the mapping
    is an ordered one exactly when [ordered] is true. *)
Theorem get_schema_top_level_keys (DEFAULT_ROLE : Role) (registry : Registry)
    (compile : FieldCompiler) (cls : Document) (role : Role) (ordered : bool)
    (h h' : Store) (definitions schema : mapping) :
  let options := _options cls in
  Document.get_definitions_and_schema DEFAULT_ROLE registry compile cls role
    {| ResolutionScope.base := Options.id options;
       ResolutionScope.current := Options.id options;
       ResolutionScope.output := "" |} ordered None h
    = (h', Ok (definitions, schema)) ->
  ("id" ∈ Mapping.keys schema -> Options.id options <> "") ->
  "$schema" ∉ Mapping.keys schema ->
  "definitions" ∉ Mapping.keys schema ->
  exists rv,
    Document.get_schema DEFAULT_ROLE registry compile cls role ordered h
      = (h', Ok rv) /\
    ("id" ∈ Mapping.keys rv <-> Options.id options <> "") /\
    ("$schema" ∈ Mapping.keys rv <-> Options.schema_uri options <> None) /\
    ("definitions" ∈ Mapping.keys rv <-> Mapping.truthy definitions = true) /\
    (forall key, key <> "id" -> key <> "$schema" -> key <> "definitions" ->
       (key ∈ Mapping.keys rv <-> key ∈ Mapping.keys schema)) /\
    (forall key, key ∈ Mapping.keys schema -> key ∈ Mapping.keys rv) /\
    Mapping.is_ordered rv = ordered.
Proof.
  intros options Hrun Hid Hschema Hdefinitions.
  unfold Document.get_schema, bind. fold options. rewrite Hrun.
  eexists. split; [reflexivity|].
  rewrite Mapping_keys_update, Mapping_is_ordered_update.
  destruct (decide (Options.id options = "")) as [Hempty|Hfull];
    destruct (Options.schema_uri options) as [uri|];
    destruct (Mapping.truthy definitions);
    rewrite ?Mapping_keys_set, ?Mapping_is_ordered_set,
      ?Mapping_keys_empty, ?Mapping_is_ordered_empty;
    (split_and!; [| | | | |done]);
    try (intros key; set_solver); set_solver.
Qed.

(** ** Field collection *)

Lemma OrderedDict_get_None_keys {A : Type} (key : string) (d : OrderedDict.t A) :
  OrderedDict.get key d = None <-> key ∉ OrderedDict.keys d.
Proof.
  unfold OrderedDict.keys. induction d as [|[k v] d IH]; simpl.
  - split; [intros _ ?%elem_of_nil; done | done].
  - rewrite not_elem_of_cons. destruct (decide (k = key)) as [->|Hne].
    + split; [done | by intros []].
    + rewrite IH. split; [by split | by intros []].
Qed.

Lemma OrderedDict_get_is_Some_keys {A : Type} (key : string)
    (d : OrderedDict.t A) :
  is_Some (OrderedDict.get key d) <-> key ∈ OrderedDict.keys d.
Proof.
  rewrite <- not_eq_None_Some, OrderedDict_get_None_keys.
  split; [apply dec_stable | auto].
Qed.

Lemma OrderedDict_keys_set_NoDup {A : Type} (key : string) (value : A)
    (d : OrderedDict.t A) :
  NoDup (OrderedDict.keys d) ->
  NoDup (OrderedDict.keys (OrderedDict.set key value d)) /\
  (forall k, k ∈ OrderedDict.keys (OrderedDict.set key value d) <->
             k = key \/ k ∈ OrderedDict.keys d).
Proof.
  unfold OrderedDict.keys. induction d as [|[k0 v0] d IH]; simpl.
  - intros _. split; [apply NoDup_singleton|].
    intros k. rewrite list_elem_of_singleton, elem_of_nil. tauto.
  - intros [Hk0 Hd]%NoDup_cons. destruct (IH Hd) as [IH1 IH2].
    destruct (decide (k0 = key)) as [->|Hne]; simpl.
    + split; [by apply NoDup_cons|]. intros k. rewrite elem_of_cons. tauto.
    + split.
      * apply NoDup_cons. split; [|done]. rewrite IH2. by intros [?|?].
      * intros k. rewrite !elem_of_cons, IH2. tauto.
Qed.

Section foldl_set.
Context {A B : Type}.
Variable g : string * B -> A.
Variable step : OrderedDict.t A -> string * B -> OrderedDict.t A.
Hypothesis step_set : forall acc kv, step acc kv = OrderedDict.set kv.1 (g kv) acc.

Lemma OrderedDict_get_foldl_set (key : string) (l : OrderedDict.t B)
    (d : OrderedDict.t A) :
  NoDup (OrderedDict.keys l) ->
  OrderedDict.get key (foldl step d l) =
  match OrderedDict.get key l with
  | Some b => Some (g (key, b))
  | None => OrderedDict.get key d
  end.
Proof.
  revert d. induction l as [|[k b] l IH]; intros d Hnodup; [done|].
  apply NoDup_cons in Hnodup as [Hk Hl]. simpl in Hk. simpl.
  rewrite IH, step_set by done. simpl.
  destruct (decide (k = key)) as [->|Hne].
  - apply OrderedDict_get_None_keys in Hk. rewrite Hk.
    apply OrderedDict_get_set_eq.
  - by rewrite OrderedDict_get_set_ne.
Qed.

End foldl_set.

Lemma OrderedDict_get_mark {B : Type} (mark : B) (key : string)
    (ks : list string) (d : OrderedDict.t B) :
  OrderedDict.get key
    (foldl (fun pre k => OrderedDict.set k mark pre) d ks) =
  if decide (key ∈ ks) then Some mark else OrderedDict.get key d.
Proof.
  revert d. induction ks as [|k ks IH]; intros d; cbn [foldl].
  - rewrite decide_False; [done | apply not_elem_of_nil].
  - rewrite IH. destruct (decide (key ∈ ks)) as [Hin|Hout].
    + rewrite decide_True; [done | by right].
    + destruct (decide (k = key)) as [->|Hne].
      * rewrite decide_True by left. apply OrderedDict_get_set_eq.
      * rewrite decide_False by (rewrite elem_of_cons; intros [?|?]; done).
        by apply OrderedDict_get_set_ne.
Qed.

Lemma OrderedDict_keys_mark_NoDup {B : Type} (mark : B) (ks : list string)
    (d : OrderedDict.t B) :
  NoDup (OrderedDict.keys d) ->
  NoDup (OrderedDict.keys
           (foldl (fun pre k => OrderedDict.set k mark pre) d ks)).
Proof.
  revert d. induction ks as [|k ks IH]; intros d Hd; [done|].
  simpl. apply IH. by apply OrderedDict_keys_set_NoDup.
Qed.

Lemma scan_scopes (attrs : OrderedDict.t DocumentMeta.AttrValue) st :
  (foldl DocumentMeta.scan_step st attrs).2 = st.2 ++ scopes_of attrs.
Proof.
  revert st. induction attrs as [|[k v] attrs IH]; intros st; simpl.
  - by rewrite app_nil_r.
  - rewrite IH. unfold DocumentMeta.scan_step. destruct v; simpl; [done| |done].
    by rewrite <- (assoc_L (++)).
Qed.

Lemma scan_NoDup (attrs : OrderedDict.t DocumentMeta.AttrValue) st :
  NoDup (OrderedDict.keys st.1) ->
  NoDup (OrderedDict.keys (foldl DocumentMeta.scan_step st attrs).1).
Proof.
  revert st. induction attrs as [|[k v] attrs IH]; intros st Hst; [done|].
  simpl. apply IH. unfold DocumentMeta.scan_step. destruct v; simpl; [|by apply OrderedDict_keys_mark_NoDup|done].
  by apply OrderedDict_keys_set_NoDup.
Qed.

Lemma scan_undeclared (name : string)
    (attrs : OrderedDict.t DocumentMeta.AttrValue) st :
  Forall (fun kv => ~ declares name kv) attrs ->
  OrderedDict.get name (foldl DocumentMeta.scan_step st attrs).1 =
  OrderedDict.get name st.1.
Proof.
  intros Hattrs. revert st.
  induction Hattrs as [|[k v] attrs Hkv _ IH]; intros st; [done|].
  simpl. rewrite IH. unfold DocumentMeta.scan_step, declares in *.
  destruct v as [value|value|]; simpl in *; [| |done].
  - by apply OrderedDict_get_set_ne.
  - rewrite OrderedDict_get_mark. rewrite decide_False; [done|].
    by rewrite <- OrderedDict_get_is_Some_keys.
Qed.

Lemma scan_last_declaration (name : string)
    (pre post : OrderedDict.t DocumentMeta.AttrValue)
    (kv : string * DocumentMeta.AttrValue) :
  declares name kv ->
  Forall (fun kv => ~ declares name kv) post ->
  OrderedDict.get name (DocumentMeta.scan_attrs (pre ++ kv :: post)).1 =
  match kv.2 with
  | DocumentMeta.AField value => Some (DocumentMeta.Declared value)
  | _ => Some DocumentMeta.ToBeReplaced
  end.
Proof.
  intros Hkv Hpost. unfold DocumentMeta.scan_attrs.
  rewrite foldl_app. cbn [foldl]. rewrite scan_undeclared by done.
  unfold DocumentMeta.scan_step, declares in *.
  destruct kv as [k [value|value|]]; simpl in *; [| |done].
  - subst k. apply OrderedDict_get_set_eq.
  - rewrite OrderedDict_get_mark. rewrite decide_True; [done|].
    by apply OrderedDict_get_is_Some_keys.
Qed.

Lemma collect_fields_get (bases : list DocumentMeta.BaseClass)
    (attrs : OrderedDict.t DocumentMeta.AttrValue) (name : string) :
  OrderedDict.get name (DocumentMeta.collect_fields bases attrs) =
  match OrderedDict.get name (DocumentMeta.scan_attrs attrs).1 with
  | Some (DocumentMeta.Declared field) => Some field
  | Some DocumentMeta.ToBeReplaced =>
      Some (SVar (DocumentMeta.scope_values (scopes_of attrs) name))
  | None => OrderedDict.get name (DocumentMeta.inherited_fields bases)
  end.
Proof.
  unfold DocumentMeta.collect_fields.
  pose proof (scan_scopes attrs ([], [])) as Hscopes.
  pose proof (scan_NoDup attrs ([], []) (NoDup_nil_2 : NoDup [])) as Hnodup.
  fold (DocumentMeta.scan_attrs attrs) in Hscopes, Hnodup.
  destruct (DocumentMeta.scan_attrs attrs) as [pre_fields scopes].
  simpl in *. subst scopes.
  rewrite (OrderedDict_get_foldl_set
             (fun nf => match nf.2 with
                        | DocumentMeta.ToBeReplaced =>
                            SVar (DocumentMeta.scope_values (scopes_of attrs) nf.1)
                        | DocumentMeta.Declared field => field
                        end)); [|by intros acc [n []]|done].
  by destruct (OrderedDict.get name pre_fields) as [[]|].
Qed.

Lemma inherited_fields_cons (base : DocumentMeta.BaseClass)
    (bases : list DocumentMeta.BaseClass) :
  DocumentMeta.inherited_fields (base :: bases) =
  match base with
  | DocumentMeta.DocumentBase b =>
      OrderedDict.update (DocumentMeta.inherited_fields bases) (_fields b)
  | DocumentMeta.PlainBase => DocumentMeta.inherited_fields bases
  end.
Proof.
  unfold DocumentMeta.inherited_fields.
  by rewrite reverse_cons, foldl_app.
Qed.

(** ** The class namespace *)

Lemma OrderedDict_keys_set_cases {A : Type} (key : string) (value : A)
    (d : OrderedDict.t A) :
  OrderedDict.keys (OrderedDict.set key value d) =
  if decide (key ∈ OrderedDict.keys d) then OrderedDict.keys d
  else OrderedDict.keys d ++ [key].
Proof.
  unfold OrderedDict.keys. induction d as [|[k v] d IH].
  - cbn. by rewrite decide_False by apply not_elem_of_nil.
  - cbn [OrderedDict.set]. rewrite !fmap_cons. cbn [fst].
    destruct (decide (k = key)) as [->|Hne].
    + rewrite fmap_cons. by rewrite decide_True by left.
    + rewrite fmap_cons, IH. cbn [fst].
      destruct (decide (key ∈ d.*1)) as [Hin|Hin].
      * by rewrite decide_True by (by right).
      * rewrite decide_False; [done|].
        intros [?|?]%elem_of_cons; congruence.
Qed.

Lemma class_namespace_snoc (body : list (string * DocumentMeta.AttrValue))
    (key : string) (value : DocumentMeta.AttrValue) :
  DocumentMeta.class_namespace (body ++ [(key, value)]) =
  OrderedDict.set key value (DocumentMeta.class_namespace body).
Proof. unfold DocumentMeta.class_namespace. by rewrite foldl_app. Qed.

Lemma class_namespace_keys (body : list (string * DocumentMeta.AttrValue)) :
  OrderedDict.keys (DocumentMeta.class_namespace body) = first_bindings body.
Proof.
  induction body as [|[key value] body IH] using rev_ind; [done|].
  rewrite class_namespace_snoc, OrderedDict_keys_set_cases, IH.
  unfold first_bindings.
  rewrite fmap_app, reverse_app. cbn [fmap list_fmap reverse app fst].
  change (reverse [key]) with [key]. cbn [app remove_dups].
  destruct (decide_rel elem_of key (reverse body.*1)) as [Hin|Hin].
  - rewrite decide_True; [done|].
    by rewrite elem_of_reverse, elem_of_remove_dups.
  - rewrite decide_False, reverse_cons; [done|].
    by rewrite elem_of_reverse, elem_of_remove_dups.
Qed.

Lemma class_namespace_NoDup (body : list (string * DocumentMeta.AttrValue)) :
  NoDup (OrderedDict.keys (DocumentMeta.class_namespace body)).
Proof.
  rewrite class_namespace_keys. unfold first_bindings.
  rewrite reverse_Permutation. apply NoDup_remove_dups.
Qed.

Lemma class_namespace_get (body : list (string * DocumentMeta.AttrValue))
    (key : string) :
  OrderedDict.get key (DocumentMeta.class_namespace body) =
  OrderedDict.get key (reverse body).
Proof.
  induction body as [|[k v] body IH] using rev_ind; [done|].
  rewrite class_namespace_snoc, reverse_app. cbn.
  destruct (decide (k = key)) as [->|Hne].
  - apply OrderedDict_get_set_eq.
  - by rewrite OrderedDict_get_set_ne.
Qed.

(** C5, amended: the fields of a class are computed once, when
    the class is declared: they are the fields of its bases, merged from
    the last base to the first so that an earlier base overrides a later
    one, overridden in turn by what the class namespace declares.  The
    namespace holds every name the class body binds once, at the place
    of its first binding and with the value bound last.  A name the
    namespace does not declare keeps the inherited field; a name the
    namespace binds directly, at a later place than every scope declaring
    it, gets the field bound there; a name that a scope of the namespace
    declares, no later entry declaring it, gets one [Var] that lists,
    scope by scope in the order of the namespace, the matcher and the
    field of every scope declaring it.  [__new__] stores this mapping in
    the class and builds the implicit object field from it. *)
Theorem collect_fields_merges_bases_then_class_body
    (bases : list DocumentMeta.BaseClass)
    (body : list (string * DocumentMeta.AttrValue)) (name : string) :
  let attrs := DocumentMeta.class_namespace body in
  (DocumentMeta.inherited_fields [] = [] /\
   forall base rest,
     DocumentMeta.inherited_fields (base :: rest) =
     match base with
     | DocumentMeta.DocumentBase b =>
         OrderedDict.update (DocumentMeta.inherited_fields rest) (_fields b)
     | DocumentMeta.PlainBase => DocumentMeta.inherited_fields rest
     end) /\
  (OrderedDict.keys attrs = first_bindings body /\
   NoDup (OrderedDict.keys attrs) /\
   forall key,
     OrderedDict.get key attrs = OrderedDict.get key (reverse body)) /\
  (Forall (fun kv => ~ declares name kv) attrs ->
   OrderedDict.get name (DocumentMeta.collect_fields bases attrs) =
   OrderedDict.get name (DocumentMeta.inherited_fields bases)) /\
  (forall pre post value,
     attrs = pre ++ (name, DocumentMeta.AField value) :: post ->
     Forall (fun kv => ~ declares name kv) post ->
     OrderedDict.get name (DocumentMeta.collect_fields bases attrs) =
     Some value) /\
  (forall pre post key scope,
     attrs = pre ++ (key, DocumentMeta.AScope scope) :: post ->
     declares name (key, DocumentMeta.AScope scope) ->
     Forall (fun kv => ~ declares name kv) post ->
     OrderedDict.get name (DocumentMeta.collect_fields bases attrs) =
     Some (SVar
       (flat_map
          (fun scope =>
             match OrderedDict.get name (DocumentMeta.__fields__ scope) with
             | Some field => [(DocumentMeta.__matcher__ scope, field)]
             | None => []
             end)
          (scopes_of attrs)))) /\
  (forall module class_name options registry,
     let klass :=
       (DocumentMeta.__new__ module class_name bases attrs options
                             registry).1 in
     _fields klass = DocumentMeta.collect_fields bases attrs /\
     _field klass =
       DictField (DocumentMeta.collect_fields bases attrs)
                 (Options.pattern_properties options)
                 (Options.additional_properties options)).
Proof.
  intros attrs. split_and!.
  - done.
  - apply inherited_fields_cons.
  - apply class_namespace_keys.
  - apply class_namespace_NoDup.
  - apply class_namespace_get.
  - intros Hattrs. rewrite collect_fields_get.
    unfold DocumentMeta.scan_attrs. by rewrite scan_undeclared.
  - intros pre post value Hattrs Hpost. rewrite collect_fields_get, Hattrs.
    by rewrite (scan_last_declaration name pre post
                  (name, DocumentMeta.AField value)).
  - intros pre post key scope Hattrs Hscope Hpost.
    rewrite collect_fields_get, !Hattrs.
    by rewrite (scan_last_declaration name pre post
                  (key, DocumentMeta.AScope scope)).
  - done.
Qed.

(** Counterexample to C5 as stated: the class body declares [x] in two
    scopes and binds [x] directly afterwards; the namespace is the body
    as written, and the field collected for [x] is that direct binding,
    not a [Var]. *)
Lemma scoped_name_rebound_is_not_a_Var :
  DocumentMeta.class_namespace Samples.shadowing_attrs
    = Samples.shadowing_attrs /\
  declares "x" ("s1", DocumentMeta.AScope Samples.scope_1) /\
  declares "x" ("s2", DocumentMeta.AScope Samples.scope_2) /\
  OrderedDict.get "x"
    (DocumentMeta.collect_fields [DocumentMeta.PlainBase]
       (DocumentMeta.class_namespace Samples.shadowing_attrs))
    = Some (SField Samples.c) /\
  forall values,
    OrderedDict.get "x"
      (DocumentMeta.collect_fields [DocumentMeta.PlainBase]
         (DocumentMeta.class_namespace Samples.shadowing_attrs))
    <> Some (SVar values).
Proof.
  split_and!;
    [reflexivity | by eexists | by eexists | reflexivity | discriminate].
Qed.

(** ** Definition ids *)

(** C8, amended: a non-empty [definition_id] option is the
    definition id; with the option unset or set to the empty string the
    definition id is the module name, a dot and the class name; the id
    depends on nothing but these three. *)
Theorem get_definition_id_override_or_qualified_name (cls : Document) :
  (forall definition_id,
     Options.definition_id (_options cls) = Some definition_id ->
     definition_id <> "" ->
     Document.get_definition_id cls = definition_id) /\
  (Options.definition_id (_options cls) = None \/
   Options.definition_id (_options cls) = Some "" ->
   Document.get_definition_id cls = __module__ cls +:+ "." +:+ __name__ cls) /\
  (forall other,
     Options.definition_id (_options other)
       = Options.definition_id (_options cls) ->
     __module__ other = __module__ cls ->
     __name__ other = __name__ cls ->
     Document.get_definition_id other = Document.get_definition_id cls).
Proof.
  unfold Document.get_definition_id. split_and!.
  - intros definition_id -> Hne. by rewrite decide_False.
  - by intros [-> | ->].
  - by intros other -> -> ->.
Qed.

(** Counterexample to C8 as stated: the sample class sets [definition_id]
    explicitly, to the empty string, and its definition id is the
    qualified class name instead. *)
Lemma explicit_empty_definition_id_is_not_returned :
  Options.definition_id (_options Samples.Anonymous) = Some "" /\
  Document.get_definition_id Samples.Anonymous = "samples.Anonymous" /\
  Document.get_definition_id Samples.Anonymous <> "".
Proof. split_and!; [reflexivity | reflexivity | discriminate]. Qed.

(** ** The statements at the sample declarations *)

Lemma is_recursive_iff_self_reference_witness :
  Forall (fun v : Matcher * Slot => v.1 "role_2" = false)
    [(exact "role_1", SField (DocumentField ("samples", "Guarded")))] /\
  Document.is_recursive Samples.registry Samples.Unguarded "role_2" = false /\
  Document.is_recursive Samples.registry Samples.Guarded "role_2" = false.
Proof.
  assert (Forall (fun v : Matcher * Slot => v.1 "role_2" = false)
            [(exact "role_1", SField (DocumentField ("samples", "Guarded")))])
    as Hhidden by (repeat constructor).
  split; [exact Hhidden|]. split; [reflexivity|].
  destruct (is_recursive_iff_self_reference Samples.registry Samples.Guarded
              "role_2") as (_ & _ & Hdrop).
  exact (Hdrop Samples.Unguarded "next" _ [("name", SField Samples.a)] [] []
           SAbsent eq_refl eq_refl eq_refl Hhidden eq_refl).
Defined.

Lemma var_slot_role_disjointness_witness :
  Field_iter_fields Samples.registry Samples.array_field ≡ₚ
    [Samples.a; Samples.b; Samples.c; Samples.d; Samples.e] /\
  Field_resolve_and_iter_fields Samples.registry "role_1" Samples.array_field
    = [Samples.a; Samples.e] /\
  Field_resolve_and_iter_fields Samples.registry "role_2" Samples.array_field = [Samples.b] /\
  Field_resolve_and_iter_fields Samples.registry "role_3" Samples.array_field = [Samples.c] /\
  Field_resolve_and_iter_fields Samples.registry "role_none" Samples.array_field = [].
Proof.
  destruct (var_slot_role_disjointness Samples.registry Samples.array_field
              []
              [Samples.Var [("role_3", SField Samples.c);
                            ("role_4", SField Samples.d);
                            ("role_1", SField Samples.e);
                            ("role_none", SAbsent)]]
              [(exact "role_1", SField Samples.a);
               (exact "role_2", SField Samples.b);
               (exact "role_none", SAbsent)]
              "role_1" "role_2" "role_none"
              (SField Samples.a) (SField Samples.b))
    as (Hiter & Hr1 & Hr2 & Hnone);
    [reflexivity | discriminate | discriminate | discriminate | reflexivity |].
  split; [exact Hiter|]. split; [exact Hr1|]. split; [exact Hr2|].
  split.
  - apply (Hnone "role_3"). right. split_and!; discriminate.
  - apply (Hnone "role_none"). by left.
Defined.

Lemma Node_recursive :
  Document.is_recursive Samples.registry Samples.Node "default" = true.
Proof. vm_compute. reflexivity. Qed.

Lemma object_compiler_leaves_sets_unchanged :
  leaves_sets_unchanged Samples.object_compiler.
Proof. intros f role res_scope ordered ref h l Hl. reflexivity. Qed.

Lemma object_compiler_reads_members_only :
  reads_members_only Samples.object_compiler.
Proof.
  intros f role res_scope ordered ref1 ref2 h1 h2 Hmembers.
  unfold Samples.object_compiler. simpl. by rewrite Hmembers.
Qed.

Lemma recursive_document_joins_ref_documents_witness :
  Document.is_recursive Samples.registry Samples.Node "default" = true /\
  exists (l : nat) (h0 : Store) (scope : ResolutionScope.t),
    cls_id Samples.Node ∈ members h0 (Some l) /\
    ResolutionScope.output scope = "http://example.com/" /\
    Document.get_definitions_and_schema "default" Samples.registry
      Samples.object_compiler Samples.Node "default"
      {| ResolutionScope.base := "http://example.com/";
         ResolutionScope.current := "http://example.com/";
         ResolutionScope.output := "" |} false None ∅ =
    match Samples.object_compiler (_field Samples.Node) "default" scope
            false (Some l) h0 with
    | (h', Ok (definitions, schema)) =>
        (h', Ok (Mapping.set (Document.get_definition_id Samples.Node)
                             (JMap schema) definitions,
                 ResolutionScope.create_ref scope
                   (Document.get_definition_id Samples.Node)))
    | (h', Raise e) =>
        (h', Raise (push_step (DocumentStep (cls_id Samples.Node) "default") e))
    end.
Proof.
  split; [exact Node_recursive|].
  destruct (recursive_document_joins_ref_documents "default" Samples.registry
              Samples.object_compiler Samples.Node "default"
              {| ResolutionScope.base := "http://example.com/";
                 ResolutionScope.current := "http://example.com/";
                 ResolutionScope.output := "" |} false None ∅ Node_recursive)
    as (l & h0 & scope & _ & _ & Hin & _ & Hout & _ & _ & Hrun).
  exists l, h0, scope. split; [exact Hin|]. split; [exact Hout|exact Hrun].
Defined.

Lemma compile_failure_carries_document_step_witness :
  Samples.failing_compiler (_field Samples.Guarded) "role_1"
    ResolutionScope.default false None ∅ =
    (∅, Raise {| message := "invalid field";
                 steps := [OtherStep "field"] |}) /\
  Document.get_definitions_and_schema "default" Samples.registry
    Samples.failing_compiler Samples.Guarded "role_1"
    ResolutionScope.default false None ∅ =
  (∅, Raise {| message := "invalid field";
               steps := [DocumentStep ("samples", "Guarded") "role_1";
                         OtherStep "field"] |}).
Proof.
  split; [reflexivity|].
  pose proof (compile_failure_carries_document_step "default"
                Samples.registry Samples.failing_compiler Samples.Guarded
                "role_1" ResolutionScope.default false None ∅) as Hstep.
  cbv zeta in Hstep. destruct Hstep as [Hwrap _].
  rewrite (Guarded_not_recursive "default") in Hwrap by discriminate.
  exact (Hwrap ∅ _ eq_refl).
Defined.

Lemma caller_ref_documents_unchanged_witness :
  leaves_sets_unchanged Samples.object_compiler /\
  let h : Store := {[ 0 := {[ ("samples", "Guarded") ]} ]} in
  let h' :=
    (Document.get_definitions_and_schema "default" Samples.registry
       Samples.object_compiler Samples.Node "default"
       ResolutionScope.default false (Some 0) h).1 in
  members h' (Some 0) = {[ ("samples", "Guarded") ]} /\
  members h' (Some (fresh (dom h)))
    = {[ ("samples", "Node") ]} ∪ {[ ("samples", "Guarded") ]}.
Proof.
  split; [exact object_compiler_leaves_sets_unchanged|].
  intros h h'.
  destruct (caller_ref_documents_unchanged "default" Samples.registry
              Samples.object_compiler Samples.Node "default"
              ResolutionScope.default false (Some 0) h
              object_compiler_leaves_sets_unchanged)
    as (_ & Hcaller & Hfresh).
  unfold h'. split.
  - rewrite (Hcaller 0 eq_refl).
    + unfold members, h. by rewrite lookup_singleton_eq.
    + unfold h. rewrite dom_singleton. by apply elem_of_singleton.
  - destruct (Hfresh Node_recursive) as [_ Hnew].
    rewrite Hnew. unfold members, h. by rewrite lookup_singleton_eq.
Defined.

Lemma Node_compiled (res_scope : ResolutionScope.t) (ordered : bool)
    (ref : option nat) (h : Store) :
  let scope :=
    ResolutionScope.replace_output res_scope
      (ResolutionScope.base res_scope) in
  let h0 := <[fresh (dom h) := {[cls_id Samples.Node]} ∪ members h ref]> h in
  Document.get_definitions_and_schema "default" Samples.registry
    Samples.object_compiler Samples.Node "default" res_scope ordered ref h =
  (h0,
   Ok (Mapping.set "samples.Node"
         (JMap (Mapping.set "referenced"
                  (JNum (Z.of_nat (size (members h0 (Some (fresh (dom h)))))))
                  (Mapping.set "type" (JStr "object")
                               (Mapping.empty ordered))))
         (Mapping.empty ordered),
       ResolutionScope.create_ref scope "samples.Node")).
Proof.
  intros scope h0.
  by rewrite get_definitions_and_schema_recursive by exact Node_recursive.
Qed.

Lemma recursive_document_is_extracted_witness :
  exists (h1 : Store) (definitions schema fragment : mapping),
    Document.get_definitions_and_schema "default" Samples.registry
      Samples.object_compiler Samples.Node "default"
      ResolutionScope.default true None ∅ = (h1, Ok (definitions, schema)) /\
    schema = Dict {[ "$ref" := JStr "#/definitions/samples.Node" ]} /\
    Mapping.get "samples.Node" definitions = Some (JMap fragment) /\
    (Document.get_definitions_and_schema "default" Samples.registry
       Samples.object_compiler Samples.Node "default"
       ResolutionScope.default true None h1).2 = Ok (definitions, schema).
Proof.
  pose proof (Node_compiled ResolutionScope.default true None ∅) as Hrun.
  cbv zeta in Hrun.
  destruct (recursive_document_is_extracted "default" Samples.registry
              Samples.object_compiler Samples.Node "default"
              ResolutionScope.default true None ∅ _ _ _
              object_compiler_leaves_sets_unchanged
              object_compiler_reads_members_only Node_recursive
              ltac:(intros l Hl; discriminate Hl) Hrun)
    as (Hschema & (fragment & definitions0 & _ & _ & Hget) & Hagain).
  eexists _, _, _, fragment.
  split; [exact Hrun|]. split; [exact Hschema|].
  split; [exact Hget|exact Hagain].
Defined.

Lemma create_ref_keys (res_scope : ResolutionScope.t) (definition_id : string) :
  Mapping.keys (ResolutionScope.create_ref res_scope definition_id)
  = {[ "$ref" ]}.
Proof.
  unfold ResolutionScope.create_ref.
  by rewrite Mapping_keys_Dict, dom_singleton_L.
Qed.

Lemma get_schema_top_level_keys_witness :
  exists rv h',
    Document.get_schema "default" Samples.registry Samples.object_compiler
      Samples.Node "default" true ∅ = (h', Ok rv) /\
    ("id" ∉ Mapping.keys rv) /\
    "$schema" ∈ Mapping.keys rv /\
    "definitions" ∈ Mapping.keys rv /\
    "$ref" ∈ Mapping.keys rv /\
    Mapping.is_ordered rv = true.
Proof.
  pose proof (Node_compiled
                {| ResolutionScope.base := "";
                   ResolutionScope.current := "";
                   ResolutionScope.output := "" |} true None ∅) as Hrun.
  cbv zeta in Hrun.
  pose proof create_ref_keys as Hkeys.
  destruct (get_schema_top_level_keys "default" Samples.registry
              Samples.object_compiler Samples.Node "default" true ∅ _ _ _
              Hrun)
    as (rv & Hrv & Hid & Hschema & Hdefinitions & _ & Hrest & Hordered).
  - rewrite Hkeys. by intros ?%elem_of_singleton.
  - rewrite Hkeys. by intros ?%elem_of_singleton.
  - rewrite Hkeys. by intros ?%elem_of_singleton.
  - exists rv. eexists. split; [exact Hrv|].
    split; [intros Hin%Hid; by apply Hin|].
    split; [apply Hschema; intros [=]|].
    split; [apply Hdefinitions; reflexivity|].
    split; [|exact Hordered].
    apply Hrest. rewrite Hkeys. by apply elem_of_singleton.
Defined.

Lemma collect_fields_merges_bases_then_class_body_witness :
  DocumentMeta.class_namespace MoreSamples.rebound_body =
    [("x", DocumentMeta.AField (SField Samples.c));
     ("s1", DocumentMeta.AScope Samples.scope_1)] /\
  declares "x" ("s1", DocumentMeta.AScope Samples.scope_1) /\
  OrderedDict.get "x"
    (DocumentMeta.collect_fields [DocumentMeta.PlainBase]
       (DocumentMeta.class_namespace MoreSamples.rebound_body)) =
  Some (SVar [(exact "role_1", SField Samples.a)]) /\
  OrderedDict.get "x"
    (DocumentMeta.collect_fields [DocumentMeta.PlainBase]
       (DocumentMeta.class_namespace Samples.shadowing_attrs)) =
  Some (SField Samples.c) /\
  OrderedDict.get "x"
    (DocumentMeta.collect_fields [DocumentMeta.PlainBase]
       (DocumentMeta.class_namespace Samples.scoped_attrs)) =
  Some (SVar [(exact "role_1", SField Samples.a);
              (exact "role_2", SField Samples.b)]) /\
  OrderedDict.get "y"
    (DocumentMeta.collect_fields [DocumentMeta.DocumentBase Samples.Guarded]
       (DocumentMeta.class_namespace []))
  = OrderedDict.get "y"
      (DocumentMeta.inherited_fields [DocumentMeta.DocumentBase Samples.Guarded]).
Proof.
  assert (declares "x" ("s1", DocumentMeta.AScope Samples.scope_1)) as Hs1
    by (by eexists).
  assert (declares "x" ("s2", DocumentMeta.AScope Samples.scope_2)) as Hs2
    by (by eexists).
  split; [reflexivity|]. split; [exact Hs1|]. split_and!.
  - pose proof (collect_fields_merges_bases_then_class_body
                  [DocumentMeta.PlainBase] MoreSamples.rebound_body "x")
      as Hcases.
    cbv zeta in Hcases. destruct Hcases as (_ & _ & _ & _ & Hscope & _).
    exact (Hscope [("x", DocumentMeta.AField (SField Samples.c))] []
                  "s1" Samples.scope_1 eq_refl Hs1 (Forall_nil_2 _)).
  - pose proof (collect_fields_merges_bases_then_class_body
                  [DocumentMeta.PlainBase] Samples.shadowing_attrs "x")
      as Hcases.
    cbv zeta in Hcases. destruct Hcases as (_ & _ & _ & Hdirect & _).
    exact (Hdirect [("s1", DocumentMeta.AScope Samples.scope_1);
                    ("s2", DocumentMeta.AScope Samples.scope_2)] []
                   (SField Samples.c) eq_refl (Forall_nil_2 _)).
  - pose proof (collect_fields_merges_bases_then_class_body
                  [DocumentMeta.PlainBase] Samples.scoped_attrs "x")
      as Hcases.
    cbv zeta in Hcases. destruct Hcases as (_ & _ & _ & _ & Hscope & _).
    exact (Hscope [("x", DocumentMeta.AField (SField Samples.c));
                   ("s1", DocumentMeta.AScope Samples.scope_1)] []
                  "s2" Samples.scope_2 eq_refl Hs2 (Forall_nil_2 _)).
  - pose proof (collect_fields_merges_bases_then_class_body
                  [DocumentMeta.DocumentBase Samples.Guarded] [] "y")
      as Hcases.
    cbv zeta in Hcases. destruct Hcases as (_ & _ & Hplain & _).
    exact (Hplain (Forall_nil_2 _)).
Defined.

Lemma get_definition_id_override_or_qualified_name_witness :
  Document.get_definition_id Samples.Named = "named" /\
  Document.get_definition_id Samples.Anonymous = "samples.Anonymous" /\
  Document.get_definition_id Samples.Node = "samples.Node".
Proof.
  split_and!.
  - destruct (get_definition_id_override_or_qualified_name Samples.Named)
      as (Hset & _ & _).
    apply Hset; [reflexivity | discriminate].
  - destruct (get_definition_id_override_or_qualified_name Samples.Anonymous)
      as (_ & Hunset & _).
    apply Hunset. by right.
  - destruct (get_definition_id_override_or_qualified_name Samples.Node)
      as (_ & Hunset & _).
    apply Hunset. by left.
Defined.

(** ** The assertions of [tests/test_iter_methods.py] *)

Example test_array_field :
  Field_iter_fields Samples.registry Samples.array_field
    = [Samples.a; Samples.b; Samples.c; Samples.d; Samples.e] /\
  Field_resolve_and_iter_fields Samples.registry "role_1" Samples.array_field
    = [Samples.a; Samples.e] /\
  Field_resolve_and_iter_fields Samples.registry "role_3" Samples.array_field
    = [Samples.c] /\
  Field_resolve_and_iter_fields Samples.registry "role_none"
    Samples.array_field = [].
Proof. split_and!; reflexivity. Qed.

Example test_not_field :
  Field_iter_fields Samples.registry Samples.not_field
    = [Samples.a; Samples.b] /\
  Field_resolve_and_iter_fields Samples.registry "role_1" Samples.not_field
    = [Samples.a] /\
  Field_resolve_and_iter_fields Samples.registry "role_3" Samples.not_field
    = [].
Proof. split_and!; reflexivity. Qed.

Example test_document_field :
  Field_iter_fields Samples.registry (DocumentField (cls_id Samples.A))
    = [Samples.a; Samples.b].
Proof. vm_compute. reflexivity. Qed.

Example Node_walk :
  Document.resolve_and_walk Samples.registry Samples.Node "default" true
    {[cls_id Samples.Node]}
  = Some [DocumentField ("samples", "Node")].
Proof. vm_compute. reflexivity. Qed.

(** * Further properties of [jsl/document.py] *)

(** ** Ordered dictionaries: keys and their order *)

Lemma OrderedDict_elem_of_keys_set {A : Type} (key k : string) (value : A)
    (d : OrderedDict.t A) :
  k ∈ OrderedDict.keys (OrderedDict.set key value d) <->
  k = key \/ k ∈ OrderedDict.keys d.
Proof.
  unfold OrderedDict.keys. induction d as [|[k0 v0] d IH].
  - cbn. rewrite list_elem_of_singleton, elem_of_nil. tauto.
  - cbn [OrderedDict.set]. destruct (decide (k0 = key)) as [->|Hne].
    + rewrite !fmap_cons, !elem_of_cons. cbn. tauto.
    + rewrite !fmap_cons, !elem_of_cons, IH. tauto.
Qed.

Lemma OrderedDict_set_old {A : Type} (key : string) (value : A)
    (d : OrderedDict.t A) :
  key ∈ OrderedDict.keys d ->
  OrderedDict.keys (OrderedDict.set key value d) = OrderedDict.keys d.
Proof.
  unfold OrderedDict.keys. induction d as [|[k0 v0] d IH].
  - by intros ?%elem_of_nil.
  - intros Hin. cbn [OrderedDict.set].
    destruct (decide (k0 = key)) as [->|Hne]; [done|].
    rewrite !fmap_cons, IH; [done|].
    rewrite fmap_cons in Hin.
    apply elem_of_cons in Hin as [?|?]; [by subst|done].
Qed.

Lemma OrderedDict_set_new {A : Type} (key : string) (value : A)
    (d : OrderedDict.t A) :
  key ∉ OrderedDict.keys d ->
  OrderedDict.set key value d = d ++ [(key, value)].
Proof.
  unfold OrderedDict.keys. induction d as [|[k0 v0] d IH]; [done|].
  rewrite fmap_cons. intros [Hne Hd]%not_elem_of_cons.
  cbn [OrderedDict.set]. rewrite decide_False by (cbn in Hne; congruence).
  by rewrite IH.
Qed.

Lemma OrderedDict_keys_set_new {A : Type} (key : string) (value : A)
    (d : OrderedDict.t A) :
  key ∉ OrderedDict.keys d ->
  OrderedDict.keys (OrderedDict.set key value d) = OrderedDict.keys d ++ [key].
Proof.
  intros Hkey. rewrite OrderedDict_set_new by done.
  unfold OrderedDict.keys. by rewrite fmap_app.
Qed.

Lemma filter_ext_elem_of {A : Type} (P Q : A -> Prop)
    `{forall x, Decision (P x)} `{forall x, Decision (Q x)} (l : list A) :
  (forall x, x ∈ l -> P x <-> Q x) -> filter P l = filter Q l.
Proof.
  induction l as [|x l IH]; intros Hl; [done|].
  rewrite !filter_cons, IH by (intros y Hy; apply Hl; by right).
  destruct (decide (P x)) as [HP|HP], (decide (Q x)) as [HQ|HQ]; try done;
    apply (Hl x) in HP || apply (Hl x) in HQ; done || by left.
Qed.

Section foldl_set_keys.
Context {A B : Type}.
Variable g : string * B -> A.
Variable step : OrderedDict.t A -> string * B -> OrderedDict.t A.
Hypothesis step_set : forall acc kv, step acc kv = OrderedDict.set kv.1 (g kv) acc.

Lemma OrderedDict_foldl_set_NoDup (l : OrderedDict.t B) (d : OrderedDict.t A) :
  NoDup (OrderedDict.keys d) -> NoDup (OrderedDict.keys (foldl step d l)).
Proof.
  revert d. induction l as [|kv l IH]; intros d Hd; [done|].
  simpl. apply IH. rewrite step_set. by apply OrderedDict_keys_set_NoDup.
Qed.

Lemma OrderedDict_foldl_set_keys (l : OrderedDict.t B) (d : OrderedDict.t A) :
  NoDup (OrderedDict.keys l) ->
  OrderedDict.keys (foldl step d l) =
  OrderedDict.keys d
    ++ filter (fun k => k ∉ OrderedDict.keys d) (OrderedDict.keys l).
Proof.
  revert d. induction l as [|[k b] l IH]; intros d Hl.
  - simpl. by rewrite app_nil_r.
  - apply NoDup_cons in Hl as [Hk Hl]. simpl in Hk.
    cbn [foldl]. rewrite IH, step_set by done. cbn [fst].
    change (OrderedDict.keys ((k, b) :: l)) with (k :: OrderedDict.keys l).
    rewrite filter_cons.
    destruct (decide (k ∈ OrderedDict.keys d)) as [Hin|Hout].
    + rewrite OrderedDict_set_old by done.
      by rewrite decide_False by tauto.
    + rewrite OrderedDict_keys_set_new by done.
      rewrite decide_True by done. rewrite <- (assoc_L (++)). simpl.
      do 2 f_equal. apply filter_ext_elem_of. intros x Hx.
      rewrite elem_of_app, list_elem_of_singleton.
      split; [tauto|]. intros Hnd [? | Heq]; [done|by subst x].
Qed.

End foldl_set_keys.

(** ** Field collection: keys, order and inheritance *)

Lemma OrderedDict_update_NoDup {A : Type} (d other : OrderedDict.t A) :
  NoDup (OrderedDict.keys d) -> NoDup (OrderedDict.keys (OrderedDict.update d other)).
Proof.
  apply (OrderedDict_foldl_set_NoDup (fun kv => kv.2)). done.
Qed.

Lemma OrderedDict_get_update {A : Type} (key : string)
    (d other : OrderedDict.t A) :
  NoDup (OrderedDict.keys other) ->
  OrderedDict.get key (OrderedDict.update d other) =
  match OrderedDict.get key other with
  | Some v => Some v
  | None => OrderedDict.get key d
  end.
Proof.
  intros Hother. unfold OrderedDict.update.
  by rewrite (OrderedDict_get_foldl_set (fun kv => kv.2)).
Qed.

Lemma inherited_fields_NoDup (bases : list DocumentMeta.BaseClass) :
  NoDup (OrderedDict.keys (DocumentMeta.inherited_fields bases)).
Proof.
  unfold DocumentMeta.inherited_fields.
  assert (forall l (d : OrderedDict.t Slot),
            NoDup (OrderedDict.keys d) ->
            NoDup (OrderedDict.keys
              (foldl (fun fields base =>
                        match base with
                        | DocumentMeta.DocumentBase b =>
                            OrderedDict.update fields (_fields b)
                        | DocumentMeta.PlainBase => fields
                        end) d l))) as Hfold.
  { induction l as [|[b|] l IH]; intros d Hd; simpl; [done| |by apply IH].
    by apply IH, OrderedDict_update_NoDup. }
  apply Hfold, NoDup_nil_2.
Qed.

Lemma foldl_pointwise {A B : Type} (f g : A -> B -> A) (a : A) (l : list B) :
  (forall a b, f a b = g a b) -> foldl f a l = foldl g a l.
Proof.
  intros Hfg. revert a. induction l as [|b l IH]; intros a; [done|].
  simpl. by rewrite Hfg, IH.
Qed.

Lemma collect_fields_foldl (bases : list DocumentMeta.BaseClass)
    (attrs : OrderedDict.t DocumentMeta.AttrValue) :
  DocumentMeta.collect_fields bases attrs =
  foldl (fun fields nf =>
           OrderedDict.set nf.1
             (match nf.2 with
              | DocumentMeta.ToBeReplaced =>
                  SVar (DocumentMeta.scope_values (scopes_of attrs) nf.1)
              | DocumentMeta.Declared field => field
              end) fields)
        (DocumentMeta.inherited_fields bases)
        (DocumentMeta.scan_attrs attrs).1.
Proof.
  unfold DocumentMeta.collect_fields.
  pose proof (scan_scopes attrs ([], [])) as Hscopes.
  fold (DocumentMeta.scan_attrs attrs) in Hscopes.
  destruct (DocumentMeta.scan_attrs attrs) as [pre_fields scopes].
  simpl in *. subst scopes.
  apply foldl_pointwise. by intros fields [n []].
Qed.

(** X1: the mapping [collect_fields] returns never lists a field name
    twice, whatever the bases and the class body hold. *)
Theorem collect_fields_keys_NoDup (bases : list DocumentMeta.BaseClass)
    (attrs : OrderedDict.t DocumentMeta.AttrValue) :
  NoDup (OrderedDict.keys (DocumentMeta.collect_fields bases attrs)).
Proof.
  rewrite collect_fields_foldl.
  eapply OrderedDict_foldl_set_NoDup; [done|].
  apply inherited_fields_NoDup.
Qed.

Lemma OrderedDict_elem_of_keys_mark {B : Type} (mark : B) (k : string)
    (ks : list string) (d : OrderedDict.t B) :
  k ∈ OrderedDict.keys (foldl (fun pre key => OrderedDict.set key mark pre) d ks)
  <-> k ∈ ks \/ k ∈ OrderedDict.keys d.
Proof.
  revert d. induction ks as [|k0 ks IH]; intros d; cbn [foldl].
  - rewrite elem_of_nil. tauto.
  - rewrite IH, OrderedDict_elem_of_keys_set, elem_of_cons. tauto.
Qed.

Lemma scan_keys (attrs : OrderedDict.t DocumentMeta.AttrValue) st (k : string) :
  k ∈ OrderedDict.keys (foldl DocumentMeta.scan_step st attrs).1 <->
  k ∈ OrderedDict.keys st.1 \/ Exists (declares k) attrs.
Proof.
  revert st. induction attrs as [|[k0 v] attrs IH]; intros st; cbn [foldl].
  - rewrite Exists_nil. tauto.
  - rewrite IH, Exists_cons.
    assert (k ∈ OrderedDict.keys (DocumentMeta.scan_step st (k0, v)).1 <->
            k ∈ OrderedDict.keys st.1 \/ declares k (k0, v)) as ->; [|tauto].
    unfold DocumentMeta.scan_step, declares. destruct v as [value|value|]; simpl.
    + rewrite OrderedDict_elem_of_keys_set. split; intros [?|?]; auto.
    + rewrite OrderedDict_elem_of_keys_mark, OrderedDict_get_is_Some_keys. tauto.
    + tauto.
Qed.

(** X2: a class keeps the field names of its bases first and in their
    order, a name it overrides staying where it was; after them come,
    each once, exactly the names the class body declares anew. *)
Theorem collect_fields_key_order (bases : list DocumentMeta.BaseClass)
    (attrs : OrderedDict.t DocumentMeta.AttrValue) :
  exists new,
    OrderedDict.keys (DocumentMeta.collect_fields bases attrs) =
    OrderedDict.keys (DocumentMeta.inherited_fields bases) ++ new /\
    NoDup new /\
    forall k,
      k ∈ new <->
      (k ∉ OrderedDict.keys (DocumentMeta.inherited_fields bases)) /\
      Exists (declares k) attrs.
Proof.
  pose proof (scan_NoDup attrs ([], []) (NoDup_nil_2 : NoDup [])) as Hnodup.
  fold (DocumentMeta.scan_attrs attrs) in Hnodup.
  eexists. split; [|split].
  - rewrite collect_fields_foldl.
    by erewrite OrderedDict_foldl_set_keys.
  - by apply NoDup_filter.
  - intros k. rewrite list_elem_of_filter.
    unfold DocumentMeta.scan_attrs. rewrite scan_keys. simpl.
    rewrite elem_of_nil. tauto.
Qed.

(** X3: a name the class body does not declare is taken from the first
    base, in the order the bases are listed, whose fields hold it; bases
    without fields are passed over. *)
Theorem undeclared_name_comes_from_first_base
    (base : DocumentMeta.BaseClass) (rest : list DocumentMeta.BaseClass)
    (attrs : OrderedDict.t DocumentMeta.AttrValue) (name : string) :
  Forall (fun kv => ~ declares name kv) attrs ->
  match base with
  | DocumentMeta.DocumentBase b => NoDup (OrderedDict.keys (_fields b))
  | DocumentMeta.PlainBase => True
  end ->
  OrderedDict.get name (DocumentMeta.collect_fields (base :: rest) attrs) =
  match base with
  | DocumentMeta.DocumentBase b =>
      match OrderedDict.get name (_fields b) with
      | Some field => Some field
      | None => OrderedDict.get name (DocumentMeta.collect_fields rest attrs)
      end
  | DocumentMeta.PlainBase =>
      OrderedDict.get name (DocumentMeta.collect_fields rest attrs)
  end.
Proof.
  intros Hattrs Hbase.
  assert (forall bases,
            OrderedDict.get name (DocumentMeta.collect_fields bases attrs) =
            OrderedDict.get name (DocumentMeta.inherited_fields bases)) as Hget.
  { intros bases. rewrite collect_fields_get.
    unfold DocumentMeta.scan_attrs. by rewrite scan_undeclared. }
  rewrite !Hget, inherited_fields_cons.
  destruct base as [b|]; [|done].
  by rewrite OrderedDict_get_update.
Qed.

Lemma OrderedDict_foldl_set_fresh {A : Type} (l d : OrderedDict.t A) :
  NoDup (OrderedDict.keys l) ->
  (forall k, k ∈ OrderedDict.keys l -> k ∉ OrderedDict.keys d) ->
  foldl (fun acc kv => OrderedDict.set kv.1 kv.2 acc) d l = d ++ l.
Proof.
  revert d. induction l as [|[k v] l IH]; intros d Hl Hd.
  - by rewrite app_nil_r.
  - apply NoDup_cons in Hl as [Hk Hl]. simpl in Hk. cbn [foldl fst snd].
    rewrite OrderedDict_set_new by (apply Hd; left).
    rewrite IH; [by rewrite <- (assoc_L (++))|done|].
    intros k0 Hk0. unfold OrderedDict.keys. rewrite fmap_app, not_elem_of_app.
    split; [apply Hd; by right|].
    simpl. rewrite list_elem_of_singleton. by intros ->.
Qed.

Lemma own_fields_keys (attrs : OrderedDict.t DocumentMeta.AttrValue) :
  NoDup (OrderedDict.keys attrs) ->
  NoDup (OrderedDict.keys (own_fields attrs)) /\
  forall k, k ∈ OrderedDict.keys (own_fields attrs) -> k ∈ OrderedDict.keys attrs.
Proof.
  unfold own_fields, OrderedDict.keys.
  induction attrs as [|[k v] attrs IH]; [done|].
  rewrite fmap_cons. intros [Hk Hattrs]%NoDup_cons.
  destruct (IH Hattrs) as [IH1 IH2]. simpl in *.
  destruct v as [value|value|]; simpl.
  - split.
    + apply NoDup_cons. split; [|done]. intros Hin. by apply Hk, IH2.
    + intros k0 [->|?]%elem_of_cons; [left|right; by apply IH2].
  - split; [done|]. intros k0 ?. right. by apply IH2.
  - split; [done|]. intros k0 ?. right. by apply IH2.
Qed.

Lemma scan_plain_body (attrs : OrderedDict.t DocumentMeta.AttrValue) st :
  NoDup (OrderedDict.keys attrs) ->
  Forall not_a_scope attrs ->
  (forall k, k ∈ OrderedDict.keys attrs -> k ∉ OrderedDict.keys st.1) ->
  (foldl DocumentMeta.scan_step st attrs).1 =
  st.1 ++ ((fun kv => (kv.1, DocumentMeta.Declared kv.2)) <$> own_fields attrs).
Proof.
  revert st. induction attrs as [|[k v] attrs IH]; intros st Hnodup Hplain Hst.
  - simpl. by rewrite app_nil_r.
  - apply NoDup_cons in Hnodup as [Hk Hnodup]. simpl in Hk.
    apply Forall_cons in Hplain as [Hv Hplain].
    cbn [foldl]. rewrite IH; [|done|done|].
    + unfold DocumentMeta.scan_step, own_fields.
      destruct v as [value|value|]; simpl in *; [|done|done].
      rewrite OrderedDict_set_new by (apply Hst; left).
      by rewrite <- (assoc_L (++)).
    + intros k0 Hk0. unfold DocumentMeta.scan_step.
      destruct v as [value|value|]; simpl in *; [|done|apply Hst; by right].
      rewrite OrderedDict_elem_of_keys_set. intros [->|Hin]; [done|].
      revert Hin. apply Hst. by right.
Qed.

Lemma inherited_fields_plain (bases : list DocumentMeta.BaseClass) :
  Forall (fun base => base = DocumentMeta.PlainBase) bases ->
  DocumentMeta.inherited_fields bases = [].
Proof.
  induction bases as [|base rest IH]; [reflexivity|].
  intros [-> Hrest]%Forall_cons. rewrite inherited_fields_cons. by apply IH.
Qed.

(** X4: for a class body that is a dictionary without scopes, the fields
    of the class are the inherited mapping updated with the fields the
    body binds, in the order of the body; over bases without fields they
    are exactly the fields of the body. *)
Theorem plain_class_body_fields (bases : list DocumentMeta.BaseClass)
    (attrs : OrderedDict.t DocumentMeta.AttrValue) :
  NoDup (OrderedDict.keys attrs) ->
  Forall not_a_scope attrs ->
  DocumentMeta.collect_fields bases attrs =
    OrderedDict.update (DocumentMeta.inherited_fields bases) (own_fields attrs)
  /\ (Forall (fun base => base = DocumentMeta.PlainBase) bases ->
      DocumentMeta.collect_fields bases attrs = own_fields attrs).
Proof.
  intros Hnodup Hplain.
  assert (DocumentMeta.collect_fields bases attrs =
          OrderedDict.update (DocumentMeta.inherited_fields bases)
                             (own_fields attrs)) as Hupdate.
  { rewrite collect_fields_foldl. unfold DocumentMeta.scan_attrs.
    rewrite scan_plain_body by (done || intros k _; apply not_elem_of_nil).
    simpl. unfold OrderedDict.update.
    generalize (DocumentMeta.inherited_fields bases).
    induction (own_fields attrs) as [|[k v] own IH]; intros d; [done|].
    simpl. apply IH. }
  split; [done|]. intros Hbases. rewrite Hupdate.
  rewrite inherited_fields_plain by done.
  unfold OrderedDict.update.
  rewrite OrderedDict_foldl_set_fresh; [done| |intros k _; apply not_elem_of_nil].
  by apply own_fields_keys.
Qed.

(** ** Option collection *)

Section collect_options_facts.
Context {V : Type}.
Variable is_None : V -> bool.
Variable im_func : V -> option V.

Lemma merge_members_lookup (h : V -> V) (members : list (string * V))
    (options : gmap string V) (key : string) :
  NoDup (OrderedDict.keys members) ->
  foldl (fun options kv =>
           if DocumentMeta.is_option is_None kv
           then <[kv.1 := h kv.2]> options else options) options members
    !! key =
  match OrderedDict.get key members with
  | Some v =>
      if DocumentMeta.is_option is_None (key, v) then Some (h v)
      else options !! key
  | None => options !! key
  end.
Proof.
  revert options. induction members as [|[k v] members IH];
    intros options Hnodup; [done|].
  apply NoDup_cons in Hnodup as [Hk Hnodup]. simpl in Hk.
  apply OrderedDict_get_None_keys in Hk.
  cbn [foldl OrderedDict.get]. rewrite IH by done.
  destruct (decide (k = key)) as [->|Hne].
  - rewrite Hk. cbn [fst snd].
    destruct (DocumentMeta.is_option is_None (key, v)); [|done].
    apply lookup_insert_eq.
  - assert ((if DocumentMeta.is_option is_None (k, v)
             then <[(k, v).1 := h (k, v).2]> options else options) !! key
            = options !! key) as ->; [|done].
    destruct (DocumentMeta.is_option is_None (k, v)); [|done].
    by apply lookup_insert_ne.
Qed.

Lemma merge_members_invariant (P : string -> V -> Prop) (h : V -> V)
    (members : list (string * V)) (options : gmap string V) :
  (forall k v, DocumentMeta.is_option is_None (k, v) = true -> P k (h v)) ->
  (forall k v, options !! k = Some v -> P k v) ->
  forall k v,
    foldl (fun options kv =>
             if DocumentMeta.is_option is_None kv
             then <[kv.1 := h kv.2]> options else options) options members
      !! k = Some v ->
    P k v.
Proof.
  intros Hnew. revert options.
  induction members as [|[k0 v0] members IH]; intros options Hold; [done|].
  cbn [foldl]. apply IH. intros k v.
  destruct (DocumentMeta.is_option is_None (k0, v0)) eqn:Hkeep; [|apply Hold].
  cbn [fst snd]. destruct (decide (k0 = k)) as [->|Hne].
  - rewrite lookup_insert_eq. intros [= <-]. by apply Hnew.
  - rewrite lookup_insert_ne by done. apply Hold.
Qed.

Lemma collect_options_unfold (bases : list (option (list (string * V))))
    (Options_attr : option (list (string * V))) :
  DocumentMeta.collect_options is_None im_func bases Options_attr =
  match Options_attr with
  | Some members =>
      foldl (fun options kv =>
               if DocumentMeta.is_option is_None kv
               then <[kv.1 := default kv.2 (im_func kv.2)]> options
               else options)
            (DocumentMeta.collect_options is_None im_func bases None) members
  | None => DocumentMeta.collect_options is_None im_func bases None
  end.
Proof.
  destruct Options_attr as [members|]; [|done].
  unfold DocumentMeta.collect_options. apply foldl_pointwise.
  intros options [k v]. simpl. by destruct (im_func v).
Qed.

Lemma collect_options_bases_cons (base : option (list (string * V)))
    (rest : list (option (list (string * V)))) :
  DocumentMeta.collect_options is_None im_func (base :: rest) None =
  match base with
  | Some members =>
      foldl (fun options kv =>
               if DocumentMeta.is_option is_None kv
               then <[kv.1 := kv.2]> options else options)
            (DocumentMeta.collect_options is_None im_func rest None) members
  | None => DocumentMeta.collect_options is_None im_func rest None
  end.
Proof.
  unfold DocumentMeta.collect_options.
  rewrite reverse_cons, foldl_app. by destruct base.
Qed.

(** X5: no name that starts with an underscore becomes an option, and no
    option holds [None], given that the function of an unbound method is
    not [None]. *)
Theorem collect_options_drops_private_and_None
    (bases : list (option (list (string * V))))
    (Options_attr : option (list (string * V))) (key : string) (value : V) :
  (forall v function, im_func v = Some function -> is_None function = false) ->
  DocumentMeta.collect_options is_None im_func bases Options_attr !! key
    = Some value ->
  DocumentMeta.startswith_underscore key = false /\ is_None value = false.
Proof.
  intros Hfunction.
  set (P := fun (k : string) (v : V) =>
              DocumentMeta.startswith_underscore k = false /\
              is_None v = false).
  assert (forall bs k v,
            DocumentMeta.collect_options is_None im_func bs None !! k = Some v ->
            P k v) as Hbases.
  { induction bs as [|[members|] bs IH]; intros k v.
    - unfold DocumentMeta.collect_options. simpl. by rewrite lookup_empty.
    - rewrite collect_options_bases_cons.
      apply (merge_members_invariant P (fun v => v)); [|exact IH].
      intros k0 v0 [Hk Hv]%andb_prop. simpl in *.
      by apply negb_true_iff in Hk, Hv.
    - rewrite collect_options_bases_cons. apply IH. }
  rewrite collect_options_unfold. destruct Options_attr as [members|];
    [|apply Hbases].
  apply (merge_members_invariant P (fun v => default v (im_func v)));
    [|apply Hbases].
  intros k0 v0 [Hk Hv]%andb_prop. simpl in *.
  apply negb_true_iff in Hk, Hv. split; [done|].
  destruct (im_func v0) as [function|] eqn:Hf; simpl; [|done].
  by apply (Hfunction v0).
Qed.

(** X6: an option the class sets in its [Options], to anything but
    [None], overrides what the bases give; an option it leaves out or
    sets to [None] is inherited, from the first base in the order listed
    whose options hold a value other than [None] for it. *)
Theorem collect_options_override_order
    (bases : list (option (list (string * V))))
    (members : list (string * V)) (key : string) :
  NoDup (OrderedDict.keys members) ->
  DocumentMeta.collect_options is_None im_func bases (Some members) !! key =
    match OrderedDict.get key members with
    | Some v =>
        if DocumentMeta.is_option is_None (key, v)
        then Some (default v (im_func v))
        else DocumentMeta.collect_options is_None im_func bases None !! key
    | None => DocumentMeta.collect_options is_None im_func bases None !! key
    end /\
  DocumentMeta.collect_options is_None im_func (Some members :: bases) None
    !! key =
    match OrderedDict.get key members with
    | Some v =>
        if DocumentMeta.is_option is_None (key, v) then Some v
        else DocumentMeta.collect_options is_None im_func bases None !! key
    | None => DocumentMeta.collect_options is_None im_func bases None !! key
    end /\
  DocumentMeta.collect_options is_None im_func (None :: bases) None !! key =
    DocumentMeta.collect_options is_None im_func bases None !! key.
Proof.
  intros Hnodup. split_and!.
  - rewrite collect_options_unfold.
    by rewrite (merge_members_lookup (fun v => default v (im_func v))).
  - rewrite collect_options_bases_cons.
    by rewrite (merge_members_lookup (fun v => v)).
  - by rewrite collect_options_bases_cons.
Qed.

End collect_options_facts.

(** ** The schema document: values and key order *)

Lemma OrderedDict_get_elem_of {A : Type} (key : string) (value : A)
    (d : OrderedDict.t A) :
  NoDup (OrderedDict.keys d) -> (key, value) ∈ d ->
  OrderedDict.get key d = Some value.
Proof.
  unfold OrderedDict.keys. induction d as [|[k v] d IH]; [by intros _ ?%elem_of_nil|].
  rewrite fmap_cons. intros [Hk Hd]%NoDup_cons Hin. cbn [OrderedDict.get].
  apply elem_of_cons in Hin as [[= <- <-]|Hin]; [by rewrite decide_True|].
  rewrite decide_False; [by apply IH|].
  intros <-. apply Hk. simpl. apply list_elem_of_fmap. by exists (k, value).
Qed.

Lemma OrderedDict_get_map_to_list (key : string) (d : gmap string json) :
  OrderedDict.get key (map_to_list d) = d !! key.
Proof.
  destruct (d !! key) as [v|] eqn:Hd.
  - apply OrderedDict_get_elem_of; [apply NoDup_fst_map_to_list|].
    by apply elem_of_map_to_list.
  - apply OrderedDict_get_None_keys. unfold OrderedDict.keys.
    intros [[k v] [Hk Hin%elem_of_map_to_list]]%list_elem_of_fmap.
    simpl in Hk. congruence.
Qed.

Lemma Mapping_get_items (key : string) (m : mapping) :
  OrderedDict.get key (Mapping.items m) = Mapping.get key m.
Proof. destruct m as [d|d]; [apply OrderedDict_get_map_to_list|done]. Qed.

Lemma Mapping_get_set_ne (key key' : string) (value : json) (m : mapping) :
  key <> key' ->
  Mapping.get key' (Mapping.set key value m) = Mapping.get key' m.
Proof.
  intros Hne. destruct m as [d|d]; simpl.
  - by apply lookup_insert_ne.
  - by apply OrderedDict_get_set_ne.
Qed.

Lemma Mapping_get_update (key : string) (m other : mapping) :
  unique_keys other ->
  Mapping.get key (Mapping.update m other) =
  match Mapping.get key other with
  | Some v => Some v
  | None => Mapping.get key m
  end.
Proof.
  unfold unique_keys, Mapping.update. rewrite <- (Mapping_get_items key other).
  generalize (Mapping.items other). intros l. revert m.
  induction l as [|[k v] l IH]; intros m Hnodup; [done|].
  rewrite fmap_cons in Hnodup. apply NoDup_cons in Hnodup as [Hk Hnodup].
  simpl in Hk. apply OrderedDict_get_None_keys in Hk.
  cbn [foldl OrderedDict.get fst snd]. rewrite IH by done.
  destruct (decide (k = key)) as [->|Hne].
  - rewrite Hk. apply Mapping_get_set_eq.
  - by rewrite Mapping_get_set_ne.
Qed.

Lemma Mapping_get_empty (key : string) (ordered : bool) :
  Mapping.get key (Mapping.empty ordered) = None.
Proof. by destruct ordered. Qed.

Lemma Mapping_truthy_set (key : string) (value : json) (m : mapping) :
  Mapping.truthy (Mapping.set key value m) = true.
Proof.
  unfold Mapping.truthy. destruct m as [d|d]; simpl.
  - destruct (map_to_list (<[key:=value]> d)) eqn:Hl; [|done].
    apply map_to_list_empty_iff in Hl. by apply insert_non_empty in Hl.
  - by destruct d as [|[k v] d]; simpl; [|destruct (decide (k = key))].
Qed.

Lemma create_ref_get (res_scope : ResolutionScope.t) (definition_id key : string) :
  key <> "$ref" ->
  Mapping.get key (ResolutionScope.create_ref res_scope definition_id) = None.
Proof. intros Hne. simpl. by apply lookup_singleton_ne. Qed.

Lemma create_ref_unique_keys (res_scope : ResolutionScope.t)
    (definition_id : string) :
  unique_keys (ResolutionScope.create_ref res_scope definition_id).
Proof. apply NoDup_fst_map_to_list. Qed.

Section get_schema_facts.
Variable DEFAULT_ROLE : Role.
Variable registry : Registry.
Variable compile : FieldCompiler.

Lemma get_schema_lookup (cls : Document) (role : Role) (ordered : bool)
    (h h' : Store) (definitions schema : mapping) :
  let options := _options cls in
  Document.get_definitions_and_schema DEFAULT_ROLE registry compile cls role
    {| ResolutionScope.base := Options.id options;
       ResolutionScope.current := Options.id options;
       ResolutionScope.output := "" |} ordered None h
    = (h', Ok (definitions, schema)) ->
  unique_keys schema ->
  exists rv,
    Document.get_schema DEFAULT_ROLE registry compile cls role ordered h
      = (h', Ok rv) /\
    forall key,
      Mapping.get key rv =
      match Mapping.get key schema with
      | Some v => Some v
      | None =>
          if decide (key = "definitions")
          then if Mapping.truthy definitions then Some (JMap definitions)
               else None
          else if decide (key = "$schema")
          then JStr <$> Options.schema_uri options
          else if decide (key = "id")
          then if decide (Options.id options = "") then None
               else Some (JStr (Options.id options))
          else None
      end.
Proof.
  intros options Hrun Hunique.
  unfold Document.get_schema, bind. fold options. rewrite Hrun.
  eexists. split; [reflexivity|]. intros key.
  rewrite Mapping_get_update by done.
  destruct (Mapping.get key schema) as [v|]; [done|].
  destruct (decide (key = "definitions")) as [->|Hd].
  { destruct (Mapping.truthy definitions); [apply Mapping_get_set_eq|].
    destruct (Options.schema_uri options);
      destruct (decide (Options.id options = ""));
      rewrite ?Mapping_get_set_ne by done; apply Mapping_get_empty. }
  assert (forall m, Mapping.get key
            (if Mapping.truthy definitions
             then Mapping.set "definitions" (JMap definitions) m else m)
          = Mapping.get key m) as ->.
  { intros m. destruct (Mapping.truthy definitions); [|done].
    by rewrite Mapping_get_set_ne. }
  destruct (decide (key = "$schema")) as [->|Hs].
  { destruct (Options.schema_uri options); simpl; [apply Mapping_get_set_eq|].
    destruct (decide (Options.id options = ""));
      rewrite ?Mapping_get_set_ne by done; apply Mapping_get_empty. }
  assert (forall m, Mapping.get key
            (match Options.schema_uri options with
             | Some uri => Mapping.set "$schema" (JStr uri) m
             | None => m
             end) = Mapping.get key m) as ->.
  { intros m. destruct (Options.schema_uri options); [|done].
    by rewrite Mapping_get_set_ne. }
  destruct (decide (key = "id")) as [->|Hi];
    destruct (decide (Options.id options = ""));
    rewrite ?Mapping_get_set_eq, ?Mapping_get_set_ne by done;
    done || apply Mapping_get_empty.
Qed.

(** X7: every key of the fragment is in the schema document with the
    value the fragment gives it, [id], [$schema] and [definitions]
    included; a key the fragment does not have is in the document only if
    it is one of these three, and then holds the [id] option, the
    [schema_uri] option or the definitions. *)
Theorem get_schema_values (cls : Document) (role : Role) (ordered : bool)
    (h h' : Store) (definitions schema : mapping) :
  let options := _options cls in
  Document.get_definitions_and_schema DEFAULT_ROLE registry compile cls role
    {| ResolutionScope.base := Options.id options;
       ResolutionScope.current := Options.id options;
       ResolutionScope.output := "" |} ordered None h
    = (h', Ok (definitions, schema)) ->
  unique_keys schema ->
  exists rv,
    Document.get_schema DEFAULT_ROLE registry compile cls role ordered h
      = (h', Ok rv) /\
    forall key,
      Mapping.get key rv =
      match Mapping.get key schema with
      | Some v => Some v
      | None =>
          if decide (key = "definitions")
          then if Mapping.truthy definitions then Some (JMap definitions)
               else None
          else if decide (key = "$schema")
          then JStr <$> Options.schema_uri options
          else if decide (key = "id")
          then if decide (Options.id options = "") then None
               else Some (JStr (Options.id options))
          else None
      end.
Proof. apply get_schema_lookup. Qed.

End get_schema_facts.

Lemma Mapping_update_ODict (d : list (string * json)) (other : mapping) :
  Mapping.update (ODict d) other =
  ODict (foldl (fun acc kv => OrderedDict.set kv.1 kv.2 acc) d
               (Mapping.items other)).
Proof.
  unfold Mapping.update. generalize (Mapping.items other). intros l.
  revert d. induction l as [|[k v] l IH]; intros d; [done|].
  simpl. apply IH.
Qed.

Lemma top_level_keys_set (options : Options.t) (definitions : mapping) :
  exists d,
    (let rv := Mapping.empty true in
     let rv := if decide (Options.id options = "") then rv
               else Mapping.set "id" (JStr (Options.id options)) rv in
     let rv := match Options.schema_uri options with
               | Some uri => Mapping.set "$schema" (JStr uri) rv
               | None => rv
               end in
     if Mapping.truthy definitions
     then Mapping.set "definitions" (JMap definitions) rv
     else rv) = ODict d /\
    OrderedDict.keys d = top_level_keys options definitions.
Proof.
  unfold top_level_keys.
  destruct (decide (Options.id options = ""));
    destruct (Options.schema_uri options);
    destruct (Mapping.truthy definitions);
    eexists; (split; [reflexivity|reflexivity]).
Qed.

Section schema_document.
Variable DEFAULT_ROLE : Role.
Variable registry : Registry.
Variable compile : FieldCompiler.

(** X8: an ordered schema document lists [id], [$schema] and
    [definitions] first, those of them it has and in this order, and
    after them the keys of the fragment that are none of these, in the
    order of the fragment. *)
Theorem get_schema_ordered_layout (cls : Document) (role : Role)
    (h h' : Store) (definitions schema : mapping) :
  let options := _options cls in
  Document.get_definitions_and_schema DEFAULT_ROLE registry compile cls role
    {| ResolutionScope.base := Options.id options;
       ResolutionScope.current := Options.id options;
       ResolutionScope.output := "" |} true None h
    = (h', Ok (definitions, schema)) ->
  unique_keys schema ->
  exists rv,
    Document.get_schema DEFAULT_ROLE registry compile cls role true h
      = (h', Ok rv) /\
    fst <$> Mapping.items rv =
      top_level_keys options definitions
        ++ filter (fun key => key ∉ top_level_keys options definitions)
                  (fst <$> Mapping.items schema).
Proof.
  intros options Hrun Hunique.
  unfold Document.get_schema, bind. fold options. rewrite Hrun.
  eexists. split; [reflexivity|].
  destruct (top_level_keys_set options definitions) as (d & Hd & <-).
  cbv zeta in Hd. cbv zeta. rewrite Hd.
  rewrite Mapping_update_ODict. cbn [Mapping.items].
  by apply (OrderedDict_foldl_set_keys (fun kv => kv.2)).
Qed.

(** X9: the schema document of a document treated as recursive has a
    [definitions] entry, which holds the compiled fragment under the
    definition id of the document, and a [$ref]; it has no key besides
    [id], [$schema], [definitions] and [$ref]. *)
Theorem recursive_document_schema (cls : Document) (role : Role)
    (ordered : bool) (h h' : Store) (definitions0 fragment : mapping) :
  let options := _options cls in
  Document.is_recursive registry cls DEFAULT_ROLE = true ->
  compile (_field cls) role
    {| ResolutionScope.base := Options.id options;
       ResolutionScope.current := Options.id options;
       ResolutionScope.output := Options.id options |}
    ordered (Some (fresh (dom h)))
    (<[fresh (dom h) := {[cls_id cls]} ∪ members h None]> h)
    = (h', Ok (definitions0, fragment)) ->
  exists rv definitions,
    Document.get_schema DEFAULT_ROLE registry compile cls role ordered h
      = (h', Ok rv) /\
    Mapping.get "definitions" rv = Some (JMap definitions) /\
    Mapping.get (Document.get_definition_id cls) definitions
      = Some (JMap fragment) /\
    is_Some (Mapping.get "$ref" rv) /\
    forall key,
      key <> "id" -> key <> "$schema" -> key <> "definitions" ->
      key <> "$ref" -> Mapping.get key rv = None.
Proof.
  intros options Hrec Hcompile.
  pose proof (get_definitions_and_schema_recursive DEFAULT_ROLE registry
                compile cls role
                {| ResolutionScope.base := Options.id options;
                   ResolutionScope.current := Options.id options;
                   ResolutionScope.output := "" |} ordered None h Hrec)
    as Hrun.
  cbv zeta in Hrun. unfold ResolutionScope.replace_output in Hrun.
  simpl ResolutionScope.base in Hrun. simpl ResolutionScope.current in Hrun.
  rewrite Hcompile in Hrun.
  destruct (get_schema_lookup DEFAULT_ROLE registry compile cls role ordered
              h h' _ _ Hrun (create_ref_unique_keys _ _))
    as (rv & Hrv & Hget).
  exists rv. eexists. split; [exact Hrv|]. split_and!.
  - rewrite Hget, create_ref_get by done.
    rewrite decide_True by done. by rewrite Mapping_truthy_set.
  - apply Mapping_get_set_eq.
  - rewrite Hget. simpl. rewrite lookup_singleton_eq. by eexists.
  - intros key Hid Hschema Hdefinitions Href.
    rewrite Hget, create_ref_get by done.
    by rewrite !decide_False by done.
Qed.

(** X10: when the compilation of the field tree raises a schema
    generation failure, so does [get_schema]: it returns no schema
    document, the store is as the compilation left it, and the failure is
    that of the compilation with the step of the document class and the
    role at the head of the trail.  Stated for a class whose walk under
    the default role, the one of line 292, meets registered documents
    only. *)
Theorem get_schema_failure (cls : Document) (role : Role) (ordered : bool)
    (h h' : Store) (e : SchemaGenerationException) :
  let options := _options cls in
  let is_recursive := Document.is_recursive registry cls DEFAULT_ROLE in
  let scope :=
    {| ResolutionScope.base := Options.id options;
       ResolutionScope.current := Options.id options;
       ResolutionScope.output :=
         if is_recursive then Options.id options else "" |} in
  let ref := if is_recursive then Some (fresh (dom h)) else None in
  let h0 :=
    if is_recursive
    then <[fresh (dom h) := {[cls_id cls]} ∪ members h None]> h
    else h in
  registered registry
    (Document.resolve_and_walk registry cls DEFAULT_ROLE true
                               {[cls_id cls]}) = true ->
  compile (_field cls) role scope ordered ref h0 = (h', Raise e) ->
  Document.get_schema DEFAULT_ROLE registry compile cls role ordered h =
  (h', Raise (push_step (DocumentStep (cls_id cls) role) e)).
Proof.
  intros options is_recursive scope ref h0 _.
  unfold Document.get_schema, bind. fold options.
  destruct (Document.is_recursive registry cls DEFAULT_ROLE) eqn:Hrec;
    subst is_recursive scope ref h0; cbv zeta.
  - rewrite get_definitions_and_schema_recursive by done.
    unfold ResolutionScope.replace_output. simpl.
    by intros ->.
  - rewrite get_definitions_and_schema_plain by done. unfold processing.
    by intros ->.
Qed.

(** X11: for a document treated as recursive, the definitions returned are
    those of the field compiler with the entry under the definition id of
    the document set: every other key keeps its value, an entry the
    compiler already had under that id is replaced without a failure, and
    the kind of the mapping stays. *)
Theorem recursive_definitions_extend_compiled (cls : Document) (role : Role)
    (res_scope : ResolutionScope.t) (ordered : bool) (ref : option nat)
    (h h' : Store) (definitions0 fragment : mapping) :
  Document.is_recursive registry cls DEFAULT_ROLE = true ->
  compile (_field cls) role
    (ResolutionScope.replace_output res_scope (ResolutionScope.base res_scope))
    ordered (Some (fresh (dom h)))
    (<[fresh (dom h) := {[cls_id cls]} ∪ members h ref]> h)
    = (h', Ok (definitions0, fragment)) ->
  exists definitions schema,
    Document.get_definitions_and_schema DEFAULT_ROLE registry compile
      cls role res_scope ordered ref h = (h', Ok (definitions, schema)) /\
    Mapping.get (Document.get_definition_id cls) definitions
      = Some (JMap fragment) /\
    (forall key, key <> Document.get_definition_id cls ->
       Mapping.get key definitions = Mapping.get key definitions0) /\
    Mapping.keys definitions
      = {[Document.get_definition_id cls]} ∪ Mapping.keys definitions0 /\
    Mapping.is_ordered definitions = Mapping.is_ordered definitions0.
Proof.
  intros Hrec Hcompile.
  rewrite get_definitions_and_schema_recursive by done. cbv zeta.
  rewrite Hcompile. eexists _, _. split; [reflexivity|]. split_and!.
  - apply Mapping_get_set_eq.
  - intros key Hne. by apply Mapping_get_set_ne.
  - apply Mapping_keys_set.
  - apply Mapping_is_ordered_set.
Qed.

End schema_document.

(** ** Definition ids identify classes *)

Lemma has_dot_app_dot (a b : string) : has_dot (a +:+ "." +:+ b) = true.
Proof.
  induction a as [|c a IH]; simpl; [done|].
  rewrite IH. apply orb_true_r.
Qed.

Lemma qualified_name_inj (m1 m2 n1 n2 : string) :
  has_dot n1 = false -> has_dot n2 = false ->
  m1 +:+ "." +:+ n1 = m2 +:+ "." +:+ n2 -> m1 = m2 /\ n1 = n2.
Proof.
  intros Hn1 Hn2. revert m2.
  assert (forall c a b, String c a +:+ b = String c (a +:+ b)) as Hcons
    by reflexivity.
  assert (forall b, "" +:+ b = b) as Hnil by reflexivity.
  induction m1 as [|c m1 IH]; intros [|c2 m2] Heq;
    rewrite ?Hcons, ?Hnil in Heq.
  - by injection Heq as Heq.
  - injection Heq as Hc Heq. subst n1.
    discriminate (eq_trans (eq_sym Hn1) (has_dot_app_dot m2 n2)).
  - injection Heq as Hc Heq. subst n2.
    discriminate (eq_trans (eq_sym Hn2) (has_dot_app_dot m1 n1)).
  - injection Heq as Hc Heq. subst c2.
    by destruct (IH m2 Heq) as [Hm Hn]; subst.
Qed.

(** X12: two classes without a [definition_id] option whose class names
    have no dot in them get the same definition id only if they have the
    same module and the same name. *)
Theorem get_definition_id_identifies_class (cls1 cls2 : Document) :
  Options.definition_id (_options cls1) = None ->
  Options.definition_id (_options cls2) = None ->
  has_dot (__name__ cls1) = false ->
  has_dot (__name__ cls2) = false ->
  Document.get_definition_id cls1 = Document.get_definition_id cls2 ->
  cls_id cls1 = cls_id cls2.
Proof.
  unfold Document.get_definition_id, cls_id. intros -> -> Hn1 Hn2 Heq.
  by destruct (qualified_name_inj _ _ _ _ Hn1 Hn2 Heq) as [-> ->].
Qed.

(** ** What the walk holds *)

Lemma flat_mapM_elem_of {A B : Type} (f : A -> option (list B)) (l : list A)
    (r : list B) (x : A) :
  flat_mapM f l = Some r -> x ∈ l ->
  exists ys, f x = Some ys /\ forall y, y ∈ ys -> y ∈ r.
Proof.
  revert r. induction l as [|a l IH]; intros r Hr Hx; [by apply elem_of_nil in Hx|].
  simpl in Hr. destruct (f a) as [ys|] eqn:Ha; [|done].
  destruct (flat_mapM f l) as [zs|] eqn:Hl; [|done].
  injection Hr as <-. apply elem_of_cons in Hx as [->|Hx].
  - exists ys. split; [done|]. intros y Hy. apply elem_of_app. by left.
  - destruct (IH zs eq_refl Hx) as (ys' & Hfx & Hsub).
    exists ys'. split; [done|]. intros y Hy. apply elem_of_app. right. auto.
Qed.

Lemma flat_mapM_fmap {A B C : Type} (f : B -> option (list C)) (g : A -> B)
    (l : list A) :
  flat_mapM f (g <$> l) = flat_mapM (fun x => f (g x)) l.
Proof.
  induction l as [|a l IH]; [done|].
  rewrite fmap_cons. cbn [flat_mapM]. by rewrite IH.
Qed.

Section walk_structure.
Variable role : Role.
Variable through : bool.
Variable enter : gset DocId -> DocId -> option (list Field).
Variable visited : gset DocId.

Lemma Field_resolve_and_walk_head (f : Field) (xs : list Field) :
  Field_resolve_and_walk role through enter visited f = Some xs ->
  exists rest, xs = f :: rest.
Proof.
  destruct f; simpl; intros Hxs; repeat case_match; simplify_eq; by eexists.
Qed.

Lemma Field_resolve_and_walk_slots (f : Field) :
  (forall d, f <> DocumentField d) ->
  Field_resolve_and_walk role through enter visited f =
  (fun xs => f :: xs) <$>
    flat_mapM (Slot_resolve_and_walk role through enter visited) (slots_of f).
Proof.
  intros Hf. destruct f as [uid|i a|ps pps ap|s|s|d]; simpl.
  - done.
  - destruct (Slot_resolve_and_walk _ _ _ _ i) as [xs|]; [|done].
    destruct (Slot_resolve_and_walk _ _ _ _ a) as [ys|]; [|done].
    simpl. by rewrite app_nil_r.
  - rewrite !flat_mapM_app, !flat_mapM_fmap. simpl.
    destruct (flat_mapM _ ps) as [xs|]; [|done].
    destruct (flat_mapM _ pps) as [ys|]; [|done].
    destruct (Slot_resolve_and_walk _ _ _ _ ap) as [zs|]; [|done].
    simpl. by rewrite app_nil_r.
  - destruct (Slot_resolve_and_walk _ _ _ _ s) as [xs|]; [|done].
    simpl. by rewrite app_nil_r.
  - destruct (Slot_resolve_and_walk _ _ _ _ s) as [xs|]; [|done].
    simpl. by rewrite app_nil_r.
  - by destruct (Hf d).
Qed.

Lemma Slot_resolve_and_walk_fields (s : Slot) (xs : list Field) :
  Slot_resolve_and_walk role through enter visited s = Some xs ->
  forall g, g ∈ slot_resolve_and_iter_fields role s ->
    exists ys,
      Field_resolve_and_walk role through enter visited g = Some ys /\
      forall y, y ∈ ys -> y ∈ xs.
Proof.
  rewrite Slot_resolve_and_walk_resolve. unfold slot_resolve_and_iter_fields.
  assert (forall vs, resolve role s <> SVar vs) as Hplain.
  { revert s.
    apply (Field_Slot_ind (fun _ => True)
             (fun s => forall vs, resolve role s <> SVar vs)); try done.
    intros values Hvalues.
    induction Hvalues as [|[m p] values Hp _ IH]; [done|].
    simpl in *. by destruct (m role). }
  destruct (resolve role s) as [|f|fs|vs]; simpl.
  - by intros _ g ?%elem_of_nil.
  - intros Hxs g ->%list_elem_of_singleton. by exists xs.
  - intros Hxs g Hg. by apply (flat_mapM_elem_of _ fs).
  - by destruct (Hplain vs).
Qed.

Lemma Field_resolve_and_walk_children (registry : Registry) (f : Field)
    (xs : list Field) :
  (forall d, f <> DocumentField d) ->
  Field_resolve_and_walk role through enter visited f = Some xs ->
  forall g, g ∈ Field_resolve_and_iter_fields registry role f ->
    exists ys,
      Field_resolve_and_walk role through enter visited g = Some ys /\
      forall y, y ∈ ys -> y ∈ tail xs.
Proof.
  intros Hf Hxs g Hg.
  rewrite Field_resolve_and_walk_slots in Hxs by done.
  destruct (flat_mapM _ (slots_of f)) as [rest|] eqn:Hrest; [|done].
  injection Hxs as <-. simpl.
  assert (g ∈ flat_map (slot_resolve_and_iter_fields role) (slots_of f))
    as Hin by (destruct f; try done; by destruct (Hf document_cls)).
  apply list_elem_of_In, in_flat_map in Hin as (s & Hs & Hgs).
  apply list_elem_of_In in Hs, Hgs.
  destruct (flat_mapM_elem_of _ _ _ s Hrest Hs) as (xs_s & Hxs_s & Hsub).
  destruct (Slot_resolve_and_walk_fields s xs_s Hxs_s g Hgs)
    as (ys & Hys & Hsub').
  exists ys. split; [done|]. auto.
Qed.

End walk_structure.

(** ** Recursion detection: what is found and what is not *)

Lemma is_recursive_walk (registry : Registry) (cls : Document) (role : Role) :
  exists xs,
    Field_resolve_and_walk role true
      (fun visited d =>
         match registry !! d with
         | Some target =>
             Document.resolve_and_walk_fuel registry (size registry) role true
                                            visited target
         | None => Some []
         end) {[cls_id cls]} (_field cls) = Some xs /\
    (Document.is_recursive registry cls role = true <->
     DocumentField (cls_id cls) ∈ tail xs).
Proof.
  destruct (resolve_and_walk_total registry cls role true {[cls_id cls]})
    as [fields Hfields].
  unfold Document.is_recursive. rewrite Hfields.
  unfold Document.resolve_and_walk in Hfields.
  cbn [Document.resolve_and_walk_fuel] in Hfields.
  apply fmap_Some in Hfields as (xs & Hxs & ->).
  exists xs. split; [done|]. apply is_recursive_loop_true.
Qed.

Lemma self_child_is_recursive (registry : Registry) (cls : Document)
    (role : Role) :
  (forall d, _field cls <> DocumentField d) ->
  DocumentField (cls_id cls)
    ∈ Document.resolve_and_iter_fields registry cls role ->
  Document.is_recursive registry cls role = true.
Proof.
  intros Hfield Hself.
  destruct (is_recursive_walk registry cls role) as (xs & Hxs & ->).
  destruct (Field_resolve_and_walk_children _ _ _ _ registry _ _ Hfield Hxs
              _ Hself) as (ys & Hys & Hsub).
  apply Hsub.
  destruct (Field_resolve_and_walk_head _ _ _ _ _ _ Hys) as [rest ->].
  by left.
Qed.

(** X13: a document that holds a reference to itself among the fields its
    properties resolve to under a role is recursive under that role,
    whatever else the registry holds. *)
Theorem direct_reference_is_recursive (registry : Registry) (cls : Document)
    (role : Role) :
  (forall d, _field cls <> DocumentField d) ->
  DocumentField (cls_id cls)
    ∈ Document.resolve_and_iter_fields registry cls role ->
  Document.is_recursive registry cls role = true.
Proof. apply self_child_is_recursive. Qed.

(** X14: among documents that hand the role on to the documents they
    refer to, as they do unless [roles_to_propagate] is set otherwise,
    and whose references all point to registered documents, a document
    that refers, under a role, to another document which under the same
    role refers back to it is recursive under that role. *)
Theorem reference_through_document_is_recursive (registry : Registry)
    (cls other : Document) (role : Role) :
  (forall d, _field cls <> DocumentField d) ->
  (forall d, _field other <> DocumentField d) ->
  propagates registry cls role ->
  registered registry
    (Document.resolve_and_walk registry cls role true {[cls_id cls]})
    = true ->
  cls_id other <> cls_id cls ->
  registry !! cls_id other = Some other ->
  DocumentField (cls_id other)
    ∈ Document.resolve_and_iter_fields registry cls role ->
  DocumentField (cls_id cls)
    ∈ Document.resolve_and_iter_fields registry other role ->
  Document.is_recursive registry cls role = true.
Proof.
  intros Hfield Hfield' _ _ Hne Hother Hthere Hback.
  destruct (is_recursive_walk registry cls role) as (xs & Hxs & ->).
  destruct (Field_resolve_and_walk_children _ _ _ _ registry _ _ Hfield Hxs
              _ Hthere) as (ys & Hys & Hsub).
  apply Hsub. clear Hsub Hxs.
  cbn [Field_resolve_and_walk] in Hys.
  rewrite decide_False in Hys by (by intros ?%elem_of_singleton).
  rewrite Hother in Hys.
  destruct (size registry) as [|fuel]; [done|].
  cbn [Document.resolve_and_walk_fuel] in Hys.
  destruct (Field_resolve_and_walk _ _ _ _ (_field other)) as [zs|] eqn:Hzs;
    [|done].
  simpl in Hys. injection Hys as <-. right.
  destruct (Field_resolve_and_walk_children _ _ _ _ registry _ _ Hfield' Hzs
              _ Hback) as (ws & Hws & Hsub).
  apply Hsub.
  destruct (Field_resolve_and_walk_head _ _ _ _ _ _ Hws) as [rest ->].
  by left.
Qed.

Section own_or_entered.
Variable role : Role.
Variable through : bool.
Variable enter enter' : gset DocId -> DocId -> option (list Field).
Variable visited visited' : gset DocId.

Local Abbreviation entered :=
  (fun g : Field => exists v d es, enter v d = Some es /\ g ∈ es).

Local Abbreviation own_slot :=
  (fun s : Slot =>
     forall xs,
       Slot_resolve_and_walk role through enter visited s = Some xs ->
       exists ns,
         Slot_resolve_and_walk role false enter' visited' s = Some ns /\
         forall g, g ∈ xs -> g ∈ ns \/ entered g).

Local Abbreviation own_field :=
  (fun f : Field =>
     forall xs,
       Field_resolve_and_walk role through enter visited f = Some xs ->
       exists xs' ns',
         xs = f :: xs' /\
         Field_resolve_and_walk role false enter' visited' f
           = Some (f :: ns') /\
         forall g, g ∈ xs' -> g ∈ ns' \/ entered g).

Lemma own_flat_mapM {A : Type} (r r' : A -> option (list Field)) (l : list A) :
  Forall (fun x => forall xs, r x = Some xs ->
            exists ns, r' x = Some ns /\
                       forall g, g ∈ xs -> g ∈ ns \/ entered g) l ->
  forall xs, flat_mapM r l = Some xs ->
    exists ns, flat_mapM r' l = Some ns /\
               forall g, g ∈ xs -> g ∈ ns \/ entered g.
Proof.
  induction 1 as [|x l Hx _ IH]; intros xs Hxs; simpl in *.
  - injection Hxs as <-. exists []. split; [done|]. by intros g ?%elem_of_nil.
  - destruct (r x) as [ys|]; [|done].
    destruct (flat_mapM r l) as [zs|]; [|done]. injection Hxs as <-.
    destruct (Hx ys eq_refl) as (ns1 & -> & H1).
    destruct (IH zs eq_refl) as (ns2 & -> & H2).
    exists (ns1 ++ ns2). split; [done|].
    intros g [Hg|Hg]%elem_of_app.
    + destruct (H1 g Hg); [left; apply elem_of_app|]; auto.
    + destruct (H2 g Hg); [left; apply elem_of_app|]; auto.
Qed.

Lemma own_field_slot (f : Field) : own_field f -> own_slot (SField f).
Proof.
  cbv beta. intros Hf xs Hxs. destruct (Hf xs Hxs) as (xs' & ns' & -> & Hns & Hsub).
  exists (f :: ns'). split; [done|].
  intros g [->|Hg]%elem_of_cons; [left; by left|].
  destruct (Hsub g Hg); [left; by right|by right].
Qed.

Lemma resolve_and_walk_own_or_entered :
  (forall f, own_field f) /\ (forall s, own_slot s).
Proof.
  apply (Field_Slot_ind own_field own_slot); cbv beta.
  - intros uid xs [= <-]. exists [], []. split_and!; [done..|].
    by intros g ?%elem_of_nil.
  - intros i a Hi Ha xs Hxs. simpl in *.
    destruct (Slot_resolve_and_walk _ _ _ _ i) as [ys|]; [|done].
    destruct (Slot_resolve_and_walk _ _ _ _ a) as [zs|]; [|done].
    injection Hxs as <-.
    destruct (Hi ys eq_refl) as (ns1 & -> & H1).
    destruct (Ha zs eq_refl) as (ns2 & -> & H2).
    exists (ys ++ zs), (ns1 ++ ns2). split_and!; [done..|].
    intros g [Hg|Hg]%elem_of_app.
    + destruct (H1 g Hg); [left; apply elem_of_app|]; auto.
    + destruct (H2 g Hg); [left; apply elem_of_app|]; auto.
  - intros ps pps ap Hps Hpps Hap xs Hxs. simpl in *.
    destruct (flat_mapM _ ps) as [ys|] eqn:Hys; [|done].
    destruct (flat_mapM _ pps) as [zs|] eqn:Hzs; [|done].
    destruct (Slot_resolve_and_walk _ _ _ _ ap) as [ws|]; [|done].
    injection Hxs as <-.
    destruct (own_flat_mapM _
                (fun p => Slot_resolve_and_walk role false enter' visited' p.2)
                ps Hps ys Hys) as (ns1 & -> & H1).
    destruct (own_flat_mapM _
                (fun p => Slot_resolve_and_walk role false enter' visited' p.2)
                pps Hpps zs Hzs) as (ns2 & -> & H2).
    destruct (Hap ws eq_refl) as (ns3 & -> & H3).
    exists (ys ++ zs ++ ws), (ns1 ++ ns2 ++ ns3). split_and!; [done..|].
    intros g Hg. rewrite !elem_of_app in Hg. rewrite !elem_of_app.
    destruct Hg as [Hg|[Hg|Hg]];
      [destruct (H1 g Hg)|destruct (H2 g Hg)|destruct (H3 g Hg)]; auto.
  - intros s Hs xs Hxs. simpl in *.
    destruct (Slot_resolve_and_walk _ _ _ _ s) as [ys|]; [|done].
    injection Hxs as <-. destruct (Hs ys eq_refl) as (ns & -> & H1).
    by exists ys, ns.
  - intros s Hs xs Hxs. simpl in *.
    destruct (Slot_resolve_and_walk _ _ _ _ s) as [ys|]; [|done].
    injection Hxs as <-. destruct (Hs ys eq_refl) as (ns & -> & H1).
    by exists ys, ns.
  - intros d xs Hxs. simpl in *.
    destruct through; [|injection Hxs as <-; exists [], [];
                        split_and!; [done..|]; by intros g ?%elem_of_nil].
    case_decide; [injection Hxs as <-; exists [], [];
                  split_and!; [done..|]; by intros g ?%elem_of_nil|].
    destruct (enter _ d) as [es|] eqn:Hes; [|done]. injection Hxs as <-.
    exists es, []. split_and!; [done..|].
    intros g Hg. right. by exists ({[d]} ∪ visited), d, es.
  - intros xs [= <-]. exists []. split; [done|]. by intros g ?%elem_of_nil.
  - apply own_field_slot.
  - intros fs Hfs xs Hxs. simpl in *.
    apply (own_flat_mapM (Field_resolve_and_walk role through enter visited)
             (Field_resolve_and_walk role false enter' visited') fs); [|done].
    eapply Forall_impl; [exact Hfs|]. intros f Hf. by apply own_field_slot.
  - intros vs Hvs. induction Hvs as [|[m p] vs Hp _ IH]; intros xs Hxs.
    + injection Hxs as <-. exists []. split; [done|].
      by intros g ?%elem_of_nil.
    + simpl in *. destruct (m role); [by apply Hp|by apply IH].
Qed.

End own_or_entered.

Lemma resolve_and_walk_fuel_sound (registry : Registry) (role : Role)
    (through : bool) (fuel : nat) :
  forall (visited : gset DocId) (doc : Document) (xs : list Field),
    Document.resolve_and_walk_fuel registry fuel role through visited doc
      = Some xs ->
    forall g, g ∈ xs ->
      (exists ns,
         Document.resolve_and_walk registry doc role false ∅ = Some ns /\
         g ∈ ns) \/
      (exists d target ns,
         registry !! d = Some target /\
         Document.resolve_and_walk registry target role false ∅ = Some ns /\
         g ∈ ns).
Proof.
  induction fuel as [|fuel IH]; intros visited doc xs Hxs g Hg; [done|].
  cbn [Document.resolve_and_walk_fuel] in Hxs.
  apply fmap_Some in Hxs as (xs0 & Hxs0 & ->).
  destruct (resolve_and_walk_own_or_entered role through
              (fun visited d =>
                 match registry !! d with
                 | Some target =>
                     Document.resolve_and_walk_fuel registry fuel
                       role through visited target
                 | None => Some []
                 end)
              (fun visited d =>
                 match registry !! d with
                 | Some target =>
                     Document.resolve_and_walk_fuel registry (size registry)
                       role false visited target
                 | None => Some []
                 end) visited ∅) as [Hfield _].
  destruct (Hfield (_field doc) xs0 Hxs0) as (xs' & ns' & -> & Hown & Hcover).
  simpl in Hg. destruct (Hcover g Hg) as [Hin|(v & d & es & Hes & Hin)].
  - left. exists ns'. split; [|done].
    unfold Document.resolve_and_walk.
    cbn [Document.resolve_and_walk_fuel]. by rewrite Hown.
  - right. destruct (registry !! d) as [target|] eqn:Hd.
    + destruct (IH v target es Hes g Hin)
        as [(ns & Hns & Hg')|(d' & target' & ns & Hd' & Hns & Hg')].
      * by exists d, target, ns.
      * by exists d', target', ns.
    + injection Hes as <-. by apply elem_of_nil in Hin.
Qed.

(** X15: among documents that hand the role on to the documents they
    refer to, as they do unless [roles_to_propagate] is set otherwise, a
    document is found recursive under a role only if a reference to it is
    among the fields that it, or some registered document, holds under
    that role, document references not followed. *)
Theorem recursive_only_if_referenced (registry : Registry) (cls : Document)
    (role : Role) :
  propagates registry cls role ->
  Document.is_recursive registry cls role = true ->
  exists doc fields,
    (doc = cls \/ exists d, registry !! d = Some doc) /\
    Document.resolve_and_walk registry doc role false ∅ = Some fields /\
    DocumentField (cls_id cls) ∈ fields.
Proof.
  intros _.
  unfold Document.is_recursive, Document.resolve_and_walk at 1.
  destruct (Document.resolve_and_walk_fuel _ _ _ _ _ _) as [xs|] eqn:Hxs;
    [|done].
  intros Hloop%is_recursive_loop_true.
  destruct (resolve_and_walk_fuel_sound _ _ _ _ _ _ _ Hxs _ Hloop)
    as [(ns & Hns & Hg)|(d & target & ns & Hd & Hns & Hg)].
  - exists cls, ns. split_and!; [by left|done..].
  - exists target, ns. split_and!; [right; by exists d|done..].
Qed.

(** ** The walk over every branch *)

Lemma prunes_flat_mapM {A : Type} (r w : A -> option (list Field)) (l : list A) :
  Forall (fun x => prunes (r x) (w x)) l ->
  prunes (flat_mapM r l) (flat_mapM w l).
Proof.
  induction 1 as [|x l (xs & ys & Hr & Hw & Hsub) _ (xr & yr & IHr & IHw & IH)];
    simpl.
  - by exists [], [].
  - rewrite Hr, Hw, IHr, IHw. exists (xs ++ xr), (ys ++ yr).
    split_and!; [done..|]. by apply sublist_app.
Qed.

Lemma prunes_tail (selected all : option (list Field)) :
  prunes selected all -> prunes (tail <$> selected) (tail <$> all).
Proof.
  intros (xs & ys & -> & -> & Hsub). exists (tail xs), (tail ys).
  split_and!; [done..|].
  induction Hsub as [|x l1 l2 Hsub IH|x l1 l2 Hsub IH]; simpl; [done..|].
  destruct l1 as [|y l1]; [apply sublist_nil_l|].
  simpl. etrans; [|exact Hsub]. by apply sublist_cons.
Qed.

Section pruning.
Variable role : Role.
Variable through : bool.
Variable enter_resolved enter_all : gset DocId -> DocId -> option (list Field).
Variable visited : gset DocId.
Hypothesis enter_prunes :
  forall d, d ∉ visited ->
    prunes (enter_resolved ({[d]} ∪ visited) d)
           (enter_all ({[d]} ∪ visited) d).

Lemma resolve_and_walk_prunes_walk :
  (forall f, prunes (Field_resolve_and_walk role through enter_resolved visited f)
                    (Field_walk through enter_all visited f)) /\
  (forall s, prunes (Slot_resolve_and_walk role through enter_resolved visited s)
                    (Slot_walk through enter_all visited s)).
Proof.
  apply Field_Slot_ind; simpl.
  - intros uid. by exists [Scalar uid], [Scalar uid].
  - intros i a (xs & ys & -> & -> & H1) (xs' & ys' & -> & -> & H2).
    eexists _, _. split_and!; [done..|].
    by apply sublist_skip, sublist_app.
  - intros ps pps ap Hps Hpps (xs3 & ys3 & -> & -> & H3).
    destruct (prunes_flat_mapM _ _ ps Hps) as (xs1 & ys1 & -> & -> & H1).
    destruct (prunes_flat_mapM _ _ pps Hpps) as (xs2 & ys2 & -> & -> & H2).
    eexists _, _. split_and!; [done..|].
    by apply sublist_skip, sublist_app, sublist_app.
  - intros s (xs & ys & -> & -> & H1). eexists _, _.
    split_and!; [done..|]. by apply sublist_skip.
  - intros s (xs & ys & -> & -> & H1). eexists _, _.
    split_and!; [done..|]. by apply sublist_skip.
  - intros d. destruct through; [|by eexists _, _].
    case_decide; [by eexists _, _|].
    destruct (enter_prunes d) as (xs & ys & -> & -> & H1); [done|].
    eexists _, _. split_and!; [done..|]. by apply sublist_skip.
  - by exists [], [].
  - done.
  - intros fs Hfs. by apply prunes_flat_mapM.
  - intros vs Hvs.
    induction Hvs as [|[m p] vs (xs & ys & Hr & Hw & H1) _
                       (xr & yr & IHr & IHw & IH)]; simpl in *.
    + by exists [], [].
    + rewrite Hw, IHw. destruct (m role).
      * exists xs, (ys ++ yr). split_and!; [done..|].
        by apply sublist_inserts_r.
      * exists xr, (ys ++ yr). split_and!; [done..|].
        by apply sublist_inserts_l.
Qed.

End pruning.

Lemma resolve_and_walk_fuel_prunes (registry : Registry) (role : Role)
    (through : bool) (fuel : nat) :
  forall (visited : gset DocId) (cls : Document),
    size (dom registry ∖ visited) < fuel ->
    prunes (Document.resolve_and_walk_fuel registry fuel role through
                                           visited cls)
           (Document.walk_fuel registry fuel through visited cls).
Proof.
  induction fuel as [|fuel IH]; intros visited cls Hfuel; [lia|].
  cbn [Document.resolve_and_walk_fuel Document.walk_fuel].
  apply prunes_tail, resolve_and_walk_prunes_walk. intros d Hd.
  destruct (registry !! d) as [target|] eqn:Hlook; [|by exists [], []].
  apply IH.
  assert (dom registry ∖ ({[d]} ∪ visited) ⊂ dom registry ∖ visited) as Hsub.
  { apply elem_of_dom_2 in Hlook. split.
    - intros x. rewrite !elem_of_difference, not_elem_of_union. tauto.
    - intros Hsub. pose proof (Hsub d) as Hin.
      rewrite !elem_of_difference, not_elem_of_union, elem_of_singleton
        in Hin. tauto. }
  apply subset_size in Hsub. lia.
Qed.

(** X16: on every registry, cyclic ones included, [Document.walk] and
    [Document.resolve_and_walk] both end, and resolving against a role
    only leaves fields out: what the resolved walk yields is, in the same
    order, part of what the walk over every branch yields for the same
    arguments. *)
Theorem resolve_and_walk_prunes_Document_walk (registry : Registry)
    (cls : Document) (role : Role) (through_document_fields : bool)
    (visited_documents : gset DocId) :
  exists selected all,
    Document.resolve_and_walk registry cls role through_document_fields
                              visited_documents = Some selected /\
    Document.walk registry cls through_document_fields visited_documents
      = Some all /\
    sublist selected all.
Proof.
  apply (resolve_and_walk_fuel_prunes registry role through_document_fields
           (S (size registry)) visited_documents cls).
  assert (size (dom registry ∖ visited_documents) <= size (dom registry))
    by (apply subseteq_size; intros x; rewrite elem_of_difference; tauto).
  rewrite size_dom in *. lia.
Qed.

(** ** Declared fields, iteration and recursion *)

Lemma sublist_flat_map {A B : Type} (f g : A -> list B) (l : list A) :
  (forall x, sublist (f x) (g x)) -> sublist (flat_map f l) (flat_map g l).
Proof.
  intros Hfg. induction l as [|x l IH]; simpl; [done|]. by apply sublist_app.
Qed.

Lemma slot_resolve_sublist_iter (role : Role) (s : Slot) :
  sublist (slot_resolve_and_iter_fields role s) (slot_iter_fields s).
Proof.
  unfold slot_resolve_and_iter_fields. revert s.
  apply (Field_Slot_ind (fun _ => True)
           (fun s => sublist (slot_iter_fields (resolve role s))
                             (slot_iter_fields s))); try done.
  intros vs Hvs. induction Hvs as [|[m p] vs Hp _ IH]; [done|].
  simpl in *. destruct (m role).
  - by apply sublist_inserts_r.
  - by apply sublist_inserts_l.
Qed.

(** X17: the fields [resolve_and_iter_fields] yields for a role are, in
    the same order, part of the fields [iter_fields] yields. *)
Theorem resolve_and_iter_fields_sublist_iter_fields (registry : Registry)
    (cls : Document) (role : Role) :
  sublist (Document.resolve_and_iter_fields registry cls role)
          (Document.iter_fields registry cls).
Proof.
  unfold Document.resolve_and_iter_fields, Document.iter_fields,
    Field_resolve_and_iter_fields, Field_iter_fields.
  destruct (_field cls) as [uid|i a|ps pps ap|s|s|d];
    try (apply sublist_flat_map; intros x; apply slot_resolve_sublist_iter).
  destruct (registry !! d) as [target|]; [|done].
  apply sublist_flat_map. intros x. apply slot_resolve_sublist_iter.
Qed.

Lemma OrderedDict_get_Some_elem_of {A : Type} (key : string) (value : A)
    (d : OrderedDict.t A) :
  OrderedDict.get key d = Some value -> (key, value) ∈ d.
Proof.
  induction d as [|[k v] d IH]; [done|]. simpl.
  destruct (decide (k = key)) as [->|Hne].
  - intros [= ->]. by left.
  - intros Hget. right. by apply IH.
Qed.

Lemma elem_of_flat_map_slots {B : Type} (f : Slot -> list B) (s : Slot)
    (slots : list Slot) (g : B) :
  s ∈ slots -> g ∈ f s -> g ∈ flat_map f slots.
Proof.
  intros Hs Hg. apply list_elem_of_In, in_flat_map.
  exists s. split; by apply list_elem_of_In.
Qed.

(** X18: in a class that [__new__] has built, the implicit field is an
    object field, and every field a declared property holds, or resolves
    to under a role, is among the fields [iter_fields], respectively
    [resolve_and_iter_fields] for that role, yields for the class. *)
Theorem declared_properties_are_iterated (module class_name : string)
    (bases : list DocumentMeta.BaseClass)
    (attrs : OrderedDict.t DocumentMeta.AttrValue) (options : Options.t)
    (registry0 registry : Registry) (name : string) (slot : Slot) :
  let klass :=
    (DocumentMeta.__new__ module class_name bases attrs options registry0).1 in
  OrderedDict.get name (_fields klass) = Some slot ->
  (forall d, _field klass <> DocumentField d) /\
  (forall g, g ∈ slot_iter_fields slot ->
     g ∈ Document.iter_fields registry klass) /\
  (forall role g, g ∈ slot_resolve_and_iter_fields role slot ->
     g ∈ Document.resolve_and_iter_fields registry klass role).
Proof.
  intros klass Hget. apply OrderedDict_get_Some_elem_of in Hget.
  assert (slot ∈ slots_of (_field klass)) as Hslot.
  { simpl. apply elem_of_app. left. apply list_elem_of_fmap.
    by exists (name, slot). }
  split_and!; [done| |].
  - intros g Hg. by apply (elem_of_flat_map_slots _ slot).
  - intros role g Hg. by apply (elem_of_flat_map_slots _ slot).
Qed.

(** X19: a class whose namespace binds a name directly to a reference to
    the class itself, at a later place than every scope declaring that
    name, is recursive under every role and over every registry.  The
    namespace holds a name the class body binds more than once at the
    place of its first binding, with the value bound last. *)
Theorem self_referencing_class_is_recursive (module class_name : string)
    (bases : list DocumentMeta.BaseClass)
    (body : list (string * DocumentMeta.AttrValue))
    (pre post : OrderedDict.t DocumentMeta.AttrValue) (options : Options.t)
    (registry0 registry : Registry) (name : string) (role : Role) :
  let attrs := DocumentMeta.class_namespace body in
  let klass :=
    (DocumentMeta.__new__ module class_name bases attrs options registry0).1 in
  attrs =
    pre ++ (name, DocumentMeta.AField
                    (SField (DocumentField (module, class_name)))) :: post ->
  Forall (fun kv => ~ declares name kv) post ->
  Document.is_recursive registry klass role = true.
Proof.
  intros attrs klass Hattrs Hpost.
  apply self_child_is_recursive; [done|].
  assert (OrderedDict.get name (_fields klass)
          = Some (SField (DocumentField (module, class_name)))) as Hget.
  { change (_fields klass) with (DocumentMeta.collect_fields bases attrs).
    rewrite collect_fields_get, Hattrs.
    by rewrite (scan_last_declaration name pre post
                  (name, DocumentMeta.AField
                           (SField (DocumentField (module, class_name))))). }
  apply OrderedDict_get_Some_elem_of in Hget.
  apply (elem_of_flat_map_slots _
           (SField (DocumentField (module, class_name)))).
  - simpl. apply elem_of_app. left. apply list_elem_of_fmap.
    by eexists (name, _).
  - by left.
Qed.

(** ** The further statements at the sample declarations *)

Lemma undeclared_name_comes_from_first_base_witness :
  Forall (fun kv => ~ declares "a" kv) MoreSamples.extending_attrs /\
  NoDup (OrderedDict.keys (_fields Samples.A)) /\
  OrderedDict.get "a"
    (DocumentMeta.collect_fields
       [DocumentMeta.DocumentBase Samples.A; DocumentMeta.PlainBase]
       MoreSamples.extending_attrs) = Some (SField Samples.a).
Proof.
  assert (Forall (fun kv => ~ declares "a" kv) MoreSamples.extending_attrs)
    as Hattrs by (repeat constructor; discriminate).
  assert (NoDup (OrderedDict.keys (_fields Samples.A))) as Hnodup
    by (apply (bool_decide_unpack _); vm_compute; exact I).
  split; [exact Hattrs|]. split; [exact Hnodup|].
  exact (undeclared_name_comes_from_first_base
           (DocumentMeta.DocumentBase Samples.A) [DocumentMeta.PlainBase]
           MoreSamples.extending_attrs "a" Hattrs Hnodup).
Defined.

Lemma plain_class_body_fields_witness :
  NoDup (OrderedDict.keys MoreSamples.plain_attrs) /\
  Forall not_a_scope MoreSamples.plain_attrs /\
  DocumentMeta.collect_fields [DocumentMeta.PlainBase] MoreSamples.plain_attrs
  = [("a", SField Samples.a); ("b", SField Samples.b)].
Proof.
  assert (NoDup (OrderedDict.keys MoreSamples.plain_attrs)) as Hnodup
    by (apply (bool_decide_unpack _); vm_compute; exact I).
  assert (Forall not_a_scope MoreSamples.plain_attrs) as Hplain
    by (repeat constructor).
  split; [exact Hnodup|]. split; [exact Hplain|].
  destruct (plain_class_body_fields [DocumentMeta.PlainBase]
              MoreSamples.plain_attrs Hnodup Hplain) as [_ Hown].
  apply Hown. repeat constructor.
Defined.

Lemma collect_options_drops_private_and_None_witness :
  DocumentMeta.collect_options MoreSamples.is_None MoreSamples.im_func
    [Some MoreSamples.parent_members] (Some MoreSamples.child_members)
    !! "title" = Some (MoreSamples.PyStr "Parent") /\
  DocumentMeta.startswith_underscore "title" = false /\
  MoreSamples.is_None (MoreSamples.PyStr "Parent") = false.
Proof.
  assert (DocumentMeta.collect_options MoreSamples.is_None MoreSamples.im_func
            [Some MoreSamples.parent_members] (Some MoreSamples.child_members)
            !! "title" = Some (MoreSamples.PyStr "Parent")) as Hlookup
    by (vm_compute; reflexivity).
  split; [exact Hlookup|].
  apply (collect_options_drops_private_and_None MoreSamples.is_None
           MoreSamples.im_func [Some MoreSamples.parent_members]
           (Some MoreSamples.child_members) "title"
           (MoreSamples.PyStr "Parent")); [|exact Hlookup].
  intros v function Hv. destruct v as [| | | |[]]; simpl in Hv;
    try discriminate Hv. by injection Hv as <-.
Defined.

Lemma collect_options_override_order_witness :
  NoDup (OrderedDict.keys MoreSamples.child_members) /\
  DocumentMeta.collect_options MoreSamples.is_None MoreSamples.im_func
    [Some MoreSamples.parent_members] (Some MoreSamples.child_members)
    !! "title" =
  DocumentMeta.collect_options MoreSamples.is_None MoreSamples.im_func
    [Some MoreSamples.parent_members] None !! "title".
Proof.
  assert (NoDup (OrderedDict.keys MoreSamples.child_members)) as Hnodup
    by (apply (bool_decide_unpack _); vm_compute; exact I).
  split; [exact Hnodup|].
  destruct (collect_options_override_order MoreSamples.is_None
              MoreSamples.im_func [Some MoreSamples.parent_members]
              MoreSamples.child_members "title" Hnodup) as (Hown & _ & _).
  exact Hown.
Defined.

Lemma Guarded_compiled (role : Role) (res_scope : ResolutionScope.t)
    (ordered : bool) (ref : option nat) (h : Store) :
  Document.get_definitions_and_schema "default" Samples.registry
    Samples.object_compiler Samples.Guarded role res_scope ordered ref h =
  (h, Ok (Mapping.empty ordered,
          Mapping.set "referenced" (JNum (Z.of_nat (size (members h ref))))
            (Mapping.set "type" (JStr "object") (Mapping.empty ordered)))).
Proof.
  rewrite get_definitions_and_schema_plain
    by (by apply Guarded_not_recursive).
  reflexivity.
Qed.

Lemma object_fragment_unique_keys (n : Z) :
  unique_keys (Mapping.set "referenced" (JNum n)
                 (Mapping.set "type" (JStr "object") (Mapping.empty true))).
Proof. apply (bool_decide_unpack _). vm_compute. exact I. Qed.

Lemma get_schema_values_witness :
  exists rv,
    Document.get_schema "default" Samples.registry Samples.object_compiler
      Samples.Guarded "role_1" true ∅ = (∅, Ok rv) /\
    Mapping.get "type" rv = Some (JStr "object") /\
    Mapping.get "$schema" rv
      = Some (JStr "http://json-schema.org/draft-04/schema#") /\
    Mapping.get "id" rv = None /\
    Mapping.get "definitions" rv = None.
Proof.
  destruct (get_schema_values "default" Samples.registry
              Samples.object_compiler Samples.Guarded "role_1" true ∅ ∅ _ _
              (Guarded_compiled "role_1" _ true None ∅)
              (object_fragment_unique_keys _)) as (rv & Hrv & Hget).
  exists rv. split; [exact Hrv|].
  split; [by rewrite Hget|]. split; [by rewrite Hget|].
  split; by rewrite Hget.
Defined.

Lemma get_schema_ordered_layout_witness :
  exists rv,
    Document.get_schema "default" Samples.registry Samples.object_compiler
      Samples.Guarded "role_1" true ∅ = (∅, Ok rv) /\
    fst <$> Mapping.items rv = ["$schema"; "type"; "referenced"].
Proof.
  destruct (get_schema_ordered_layout "default" Samples.registry
              Samples.object_compiler Samples.Guarded "role_1" ∅ ∅ _ _
              (Guarded_compiled "role_1" _ true None ∅)
              (object_fragment_unique_keys _)) as (rv & Hrv & Hkeys).
  exists rv. split; [exact Hrv|]. rewrite Hkeys. reflexivity.
Defined.

Lemma recursive_document_schema_witness :
  exists rv definitions fragment,
    Document.get_schema "default" Samples.registry Samples.object_compiler
      Samples.Node "role_1" false ∅
      = (<[fresh (dom (∅ : Store)) := {[cls_id Samples.Node]} ∪ ∅]> ∅, Ok rv) /\
    Mapping.get "definitions" rv = Some (JMap definitions) /\
    Mapping.get "samples.Node" definitions = Some (JMap fragment) /\
    is_Some (Mapping.get "$ref" rv) /\
    Mapping.get "type" rv = None.
Proof.
  destruct (recursive_document_schema "default" Samples.registry
              Samples.object_compiler Samples.Node "role_1" false ∅ _ _ _
              Node_recursive eq_refl)
    as (rv & definitions & Hrv & Hdefinitions & Hfragment & Href & Hnone).
  exists rv, definitions. eexists.
  split; [exact Hrv|]. split; [exact Hdefinitions|].
  split; [exact Hfragment|]. split; [exact Href|].
  apply Hnone; discriminate.
Defined.

Lemma get_schema_failure_witness :
  registered Samples.registry
    (Document.resolve_and_walk Samples.registry Samples.Guarded "default" true
                               {[cls_id Samples.Guarded]}) = true /\
  Document.get_schema "default" Samples.registry Samples.failing_compiler
    Samples.Guarded "role_1" false ∅ =
  (∅, Raise {| message := "invalid field";
               steps := [DocumentStep ("samples", "Guarded") "role_1";
                         OtherStep "field"] |}).
Proof.
  assert (registered Samples.registry
            (Document.resolve_and_walk Samples.registry Samples.Guarded
               "default" true {[cls_id Samples.Guarded]}) = true)
    as Hregistered by (vm_compute; reflexivity).
  split; [exact Hregistered|].
  pose proof (get_schema_failure "default" Samples.registry
                Samples.failing_compiler Samples.Guarded "role_1" false ∅ ∅
                {| message := "invalid field"; steps := [OtherStep "field"] |})
    as Hfailure.
  cbv zeta in Hfailure.
  rewrite (Guarded_not_recursive "default") in Hfailure by discriminate.
  exact (Hfailure Hregistered eq_refl).
Defined.

Lemma recursive_definitions_extend_compiled_witness :
  exists definitions schema h',
    Document.get_definitions_and_schema "default" Samples.registry
      Samples.object_compiler Samples.Node "role_1" ResolutionScope.default
      false None ∅ = (h', Ok (definitions, schema)) /\
    Mapping.keys definitions = {[ "samples.Node" ]} ∪ ∅ /\
    Mapping.is_ordered definitions = false.
Proof.
  destruct (recursive_definitions_extend_compiled "default" Samples.registry
              Samples.object_compiler Samples.Node "role_1"
              ResolutionScope.default false None ∅ _ _ _ Node_recursive
              eq_refl)
    as (definitions & schema & Hrun & _ & _ & Hkeys & Hordered).
  exists definitions, schema. eexists. split; [exact Hrun|].
  split; [|exact Hordered].
  rewrite Hkeys. by rewrite (Mapping_keys_empty false).
Defined.

Lemma get_definition_id_identifies_class_witness :
  Document.get_definition_id Samples.Guarded
    = Document.get_definition_id Samples.Unguarded /\
  cls_id Samples.Guarded = cls_id Samples.Unguarded.
Proof.
  split; [reflexivity|].
  apply get_definition_id_identifies_class; reflexivity.
Defined.

Lemma direct_reference_is_recursive_witness :
  DocumentField (cls_id Samples.Node)
    ∈ Document.resolve_and_iter_fields Samples.registry Samples.Node "role_1" /\
  Document.is_recursive Samples.registry Samples.Node "role_1" = true.
Proof.
  assert (DocumentField (cls_id Samples.Node)
            ∈ Document.resolve_and_iter_fields Samples.registry Samples.Node
                "role_1") as Hself by (by left).
  split; [exact Hself|].
  apply direct_reference_is_recursive; [discriminate|exact Hself].
Defined.

Lemma reference_through_document_is_recursive_witness :
  propagates MoreSamples.ring MoreSamples.Ping "role_1" /\
  registered MoreSamples.ring
    (Document.resolve_and_walk MoreSamples.ring MoreSamples.Ping "role_1" true
                               {[cls_id MoreSamples.Ping]}) = true /\
  MoreSamples.ring !! cls_id MoreSamples.Pong = Some MoreSamples.Pong /\
  Document.is_recursive MoreSamples.ring MoreSamples.Ping "role_1" = true.
Proof.
  assert (propagates MoreSamples.ring MoreSamples.Ping "role_1")
    as Hpropagates.
  { split; [reflexivity|]. intros d doc Hdoc. unfold MoreSamples.ring in Hdoc.
    apply lookup_insert_Some in Hdoc as [[_ <-] | [_ Hdoc]]; [reflexivity|].
    apply lookup_insert_Some in Hdoc as [[_ <-] | [_ Hdoc]]; [reflexivity|].
    by rewrite lookup_empty in Hdoc. }
  assert (registered MoreSamples.ring
            (Document.resolve_and_walk MoreSamples.ring MoreSamples.Ping
               "role_1" true {[cls_id MoreSamples.Ping]}) = true)
    as Hregistered by (vm_compute; reflexivity).
  assert (MoreSamples.ring !! cls_id MoreSamples.Pong = Some MoreSamples.Pong)
    as Hpong by (vm_compute; reflexivity).
  split; [exact Hpropagates|]. split; [exact Hregistered|].
  split; [exact Hpong|].
  apply (reference_through_document_is_recursive MoreSamples.ring
           MoreSamples.Ping MoreSamples.Pong "role_1");
    [discriminate | discriminate | exact Hpropagates | exact Hregistered
    | discriminate | exact Hpong | by left | by left].
Defined.

Lemma recursive_only_if_referenced_witness :
  propagates Samples.registry Samples.Node "default" /\
  exists doc fields,
    (doc = Samples.Node \/ exists d, Samples.registry !! d = Some doc) /\
    Document.resolve_and_walk Samples.registry doc "default" false ∅
      = Some fields /\
    DocumentField (cls_id Samples.Node) ∈ fields.
Proof.
  assert (propagates Samples.registry Samples.Node "default") as Hpropagates.
  { split; [reflexivity|]. apply (bool_decide_unpack _). vm_compute. exact I. }
  split; [exact Hpropagates|].
  exact (recursive_only_if_referenced Samples.registry Samples.Node "default"
           Hpropagates Node_recursive).
Defined.

Lemma declared_properties_are_iterated_witness :
  OrderedDict.get "a" (_fields Samples.A) = Some (SField Samples.a) /\
  Samples.a ∈ Document.iter_fields Samples.registry Samples.A /\
  Samples.a ∈ Document.resolve_and_iter_fields Samples.registry Samples.A
                "role_1".
Proof.
  split; [reflexivity|].
  destruct (declared_properties_are_iterated "samples" "A"
              [DocumentMeta.PlainBase] MoreSamples.plain_attrs Samples.options
              ∅ Samples.registry "a" (SField Samples.a) eq_refl)
    as (_ & Hiter & Hresolve).
  split; [apply Hiter; by left|apply (Hresolve "role_1"); by left].
Defined.

Lemma self_referencing_class_is_recursive_witness :
  DocumentMeta.class_namespace MoreSamples.relinked_body =
    [("next", DocumentMeta.AField
                (SField (DocumentField ("samples", "Node"))))] /\
  Document.is_recursive MoreSamples.ring
    (DocumentMeta.__new__ "samples" "Node" [DocumentMeta.PlainBase]
       (DocumentMeta.class_namespace MoreSamples.relinked_body)
       Samples.options ∅).1 "role_2" = true.
Proof.
  split; [reflexivity|].
  exact (self_referencing_class_is_recursive "samples" "Node"
           [DocumentMeta.PlainBase] MoreSamples.relinked_body [] []
           Samples.options ∅ MoreSamples.ring "next" "role_2" eq_refl
           (Forall_nil_2 _)).
Defined.
